(** * Post-processing core of the plate recognition pipeline

    Shallow embedding of the three Hailo post-processing plugins

      - [plate_detection.cpp]: detection decoding, IoU, greedy NMS;
      - [plate_crop.cpp]: crop-region computation;
      - [plate_ocr.cpp]: CTC greedy decoding and plate-text validation;

    followed by the properties of these functions.

    Numeric model.  A C++ [float] is modelled by an exact rational ([Q]):
    additions, subtractions, multiplications and comparisons are the exact
    ones, literals denote their decimal value, and rounding is outside the
    model.  The one place where exact arithmetic has no answer, a division
    by zero, follows IEEE 754: see [fdiv].  Equality of rationals is [Qeq]
    (written [==]).  A C++ [int] is modelled by [Z]; the only place where
    the 32-bit range matters, the conversion of a [float] to [int], checks
    it explicitly. *)

From Stdlib Require Import ZArith QArith Qround Bool String Ascii List.
From Stdlib Require Import Lia Lqa Permutation Sorted.
Import ListNotations.

Set Implicit Arguments.

(* ================================================================= *)
(** ** Undefined behaviour as an outcome *)

Module Outcome.

(** The two ways in which the C++ code can leave defined behaviour:
    reading a raw [float*] outside the tensor buffer, and converting to
    [int] a [float] whose truncation does not fit. *)
Inductive undefined : Type :=
| ReadOutOfBounds
| IntCastOverflow.

Inductive outcome (A : Type) : Type :=
| Ok (a : A)
| Undefined (u : undefined).

Arguments Ok {A} a.
Arguments Undefined {A} u.

Definition bind {A B : Type} (m : outcome A) (k : A -> outcome B) : outcome B :=
  match m with
  | Ok a => k a
  | Undefined u => Undefined u
  end.

Definition is_ok {A : Type} (m : outcome A) : bool :=
  match m with Ok _ => true | Undefined _ => false end.

End Outcome.

Import Outcome.

Declare Scope outcome_scope.
Delimit Scope outcome_scope with outcome.
Notation "x <- m ;; k" := (bind m (fun x => k))
  (at level 61, m at next level, right associativity) : outcome_scope.
Notation "' p <- m ;; k" := (bind m (fun p => k))
  (at level 61, p pattern, m at next level, right associativity) : outcome_scope.

(* ================================================================= *)
(** ** Floats, buffers and integer conversion *)

Module Num.

Definition float : Type := Q.

(** [a < b], [a > b], [a >= b] on floats. *)
Definition flt (a b : float) : bool := negb (Qle_bool b a).
Definition fgt (a b : float) : bool := flt b a.
Definition fge (a b : float) : bool := Qle_bool b a.

(** [std::max(a, b)] is [(a < b) ? b : a]; [std::min(a, b)] is
    [(b < a) ? b : a]. *)
Definition std_max (a b : float) : float := if flt a b then b else a.
Definition std_min (a b : float) : float := if flt b a then b else a.

(** The value of a float division.  A non-zero divisor gives the exact
    quotient; a zero divisor gives what IEEE 754 gives: NaN for [0/0],
    an infinity with the sign of the dividend otherwise. *)
Inductive xfloat : Type :=
| Finite (q : Q)
| NaN
| PosInf
| NegInf.

Definition fdiv (a b : float) : xfloat :=
  if Qeq_bool b 0 then
    match a ?= 0 with
    | Eq => NaN
    | Gt => PosInf
    | Lt => NegInf
    end
  else Finite (a / b).

(** [v > t] for the value of a division: false on NaN, as every IEEE
    comparison with NaN. *)
Definition xgt (v : xfloat) (t : float) : bool :=
  match v with
  | Finite q => fgt q t
  | PosInf => true
  | NaN | NegInf => false
  end.


(** Equality of division values, up to [Qeq] on the finite ones. *)
Definition xeq (u v : xfloat) : Prop :=
  match u, v with
  | Finite p, Finite q => p == q
  | NaN, NaN | PosInf, PosInf | NegInf, NegInf => True
  | _, _ => False
  end.

(** [data[i]] on a raw pointer into a buffer of [length data] floats.
    Positions are computed in [Z]: one that leaves the range of [int]
    lies outside every buffer an [int] shape can describe. *)
Definition read (data : list float) (i : Z) : outcome float :=
  if (i <? 0)%Z then Undefined ReadOutOfBounds
  else match nth_error data (Z.to_nat i) with
       | Some v => Ok v
       | None => Undefined ReadOutOfBounds
       end.

Definition INT_MIN : Z := (- 2147483648)%Z.
Definition INT_MAX : Z := 2147483647%Z.

(** Truncation toward zero. *)
Definition Qtrunc (q : Q) : Z := Z.quot (Qnum q) (Zpos (Qden q)).

(** [static_cast<int>(q)]: truncation, undefined when the truncated
    value is not an [int]. *)
Definition static_cast_int (q : float) : outcome Z :=
  let z := Qtrunc q in
  if ((INT_MIN <=? z) && (z <=? INT_MAX))%Z then Ok z
  else Undefined IntCastOverflow.

(** The tensor handed over by the inference engine: a flat buffer and
    its two declared dimensions ([tensor.data()], [tensor.width()],
    [tensor.height()]). *)
Record HailoTensor : Type := mkTensor {
  tensor_data : list float;
  tensor_width : Z;
  tensor_height : Z
}.

End Num.

Import Num.

(* ================================================================= *)
(** ** plate_detection.cpp *)

Module PlateDetection.

Local Open Scope Q_scope.
Local Open Scope outcome_scope.

Record Detection : Type := mkDetection {
  x : float;
  y : float;
  width : float;
  height : float;
  confidence : float;
  class_id : Z
}.

(** [compute_iou], lines 56-70. *)
Definition compute_iou (a b : Detection) : xfloat :=
  let x1 := std_max (x a) (x b) in
  let y1 := std_max (y a) (y b) in
  let x2 := std_min (x a + width a) (x b + width b) in
  let y2 := std_min (y a + height a) (y b + height b) in
  if flt x2 x1 || flt y2 y1 then Finite 0
  else
    let intersection := (x2 - x1) * (y2 - y1) in
    let area_a := width a * height a in
    let area_b := width b * height b in
    let union_area := area_a + area_b - intersection in
    fdiv intersection union_area.

(** The comparator handed to [std::sort], lines 28-30. *)
Definition conf_gt (a b : Detection) : bool :=
  fgt (confidence a) (confidence b).

(** What the C++ standard promises of [std::sort(first, last, comp)]:
    the range is permuted, and afterwards no element compares before an
    element placed ahead of it.  The order of elements that compare
    equivalent is left unspecified ([std::sort] is not
    [std::stable_sort]). *)
Record sort_contract (sort : list Detection -> list Detection) : Prop := {
  sort_permutes : forall l, Permutation l (sort l);
  sort_orders :
    forall l, StronglySorted (fun a b => conf_gt b a = false) (sort l)
}.

(** The inner loop, lines 40-47: [d] is [detections[i]], [ds] are the
    detections at the indices [j > i] and [sup] their [suppressed]
    flags. *)
Fixpoint suppress (thr : float) (d : Detection)
         (ds : list Detection) (sup : list bool) : list bool :=
  match ds, sup with
  | e :: ds', s :: sup' =>
      (if s then true else xgt (compute_iou d e) thr)
        :: suppress thr d ds' sup'
  | _, _ => sup
  end.

(** The outer loop, lines 34-48, over the detections from index [i] on
    and their [suppressed] flags; the kept detections are pushed in
    index order. *)
Fixpoint nms_loop (thr : float) (ds : list Detection) (sup : list bool)
  : list Detection :=
  match ds, sup with
  | d :: ds', s :: sup' =>
      if s then nms_loop thr ds' sup'
      else d :: nms_loop thr ds' (suppress thr d ds' sup')
  | _, _ => []
  end.

(** [apply_nms], lines 23-51.  [std_sort] stands for the call of
    [std::sort] with the comparator [conf_gt].  The vector is taken by
    reference and is left sorted; only the returned vector is modelled
    here. *)
Definition apply_nms (std_sort : list Detection -> list Detection)
           (detections : list Detection) (iou_threshold : float)
  : list Detection :=
  let sorted := std_sort detections in
  let suppressed := repeat false (length sorted) in
  nms_loop iou_threshold sorted suppressed.

Definition CONFIDENCE_THRESHOLD : float := 5 # 10.
Definition NMS_THRESHOLD : float := 45 # 100.

(** One iteration of the parsing loop, lines 101-118; [tau] stands for
    [CONFIDENCE_THRESHOLD]. *)
Definition decode_row (tau : float) (data : list float) (stride i : Z)
           (raw : list Detection) : outcome (list Detection) :=
  cx <- read data (i * stride + 0) ;;
  cy <- read data (i * stride + 1) ;;
  w <- read data (i * stride + 2) ;;
  h <- read data (i * stride + 3) ;;
  conf <- read data (i * stride + 4) ;;
  Ok (if fge conf tau
      then raw ++ [ {| x := cx - w / 2; y := cy - h / 2;
                       width := w; height := h;
                       confidence := conf; class_id := 0 |} ]
      else raw).

(** The parsing loop, lines 100-119, from row [i] for [n] more rows. *)
Fixpoint decode_loop (tau : float) (data : list float) (stride i : Z)
         (n : nat) (raw : list Detection) : outcome (list Detection) :=
  match n with
  | O => Ok raw
  | S n' =>
      raw' <- decode_row tau data stride i raw ;;
      decode_loop tau data stride (i + 1) n' raw'
  end.

(** [raw_detections] as it stands before the call of [apply_nms]. *)
Definition decode_rows (tau : float) (data : list float)
           (num_detections stride : Z) : outcome (list Detection) :=
  decode_loop tau data stride 0 (Z.to_nat num_detections) [].

Record HailoBBox : Type := mkBBox {
  bbox_x : float;
  bbox_y : float;
  bbox_width : float;
  bbox_height : float
}.

Record HailoDetection : Type := mkHailoDetection {
  bbox : HailoBBox;
  hconfidence : float;
  hclass_id : Z;
  label : string
}.

Definition to_hailo (det : Detection) : HailoDetection :=
  {| bbox := mkBBox (x det) (y det) (width det) (height det);
     hconfidence := confidence det;
     hclass_id := class_id det;
     label := "license_plate" |}.

(** [plate_detection], lines 79-137. *)
Definition plate_detection (std_sort : list Detection -> list Detection)
           (tensor : HailoTensor) : outcome (list HailoDetection) :=
  let data := tensor_data tensor in
  let num_detections := tensor_width tensor in
  let stride := tensor_height tensor in
  raw_detections <- decode_rows CONFIDENCE_THRESHOLD data num_detections stride ;;
  let filtered := apply_nms std_sort raw_detections NMS_THRESHOLD in
  Ok (map to_hailo filtered).

(** Two implementations of the sorting contract, both by insertion.
    [insert_by before d l] puts [d] ahead of the first element [e] of
    [l] with [before d e]. *)
Fixpoint insert_by (before : Detection -> Detection -> bool)
         (d : Detection) (l : list Detection) : list Detection :=
  match l with
  | [] => [d]
  | e :: l' => if before d e then d :: l else e :: insert_by before d l'
  end.

Definition sort_by (before : Detection -> Detection -> bool)
           (l : list Detection) : list Detection :=
  fold_right (insert_by before) [] l.

(** Equal confidences keep their input order. *)
Definition stable_sort : list Detection -> list Detection :=
  sort_by (fun d e => fge (confidence d) (confidence e)).

(** Equal confidences end up in reverse input order. *)
Definition reversing_sort : list Detection -> list Detection :=
  sort_by conf_gt.

End PlateDetection.

(* ================================================================= *)
(** ** plate_crop.cpp *)

Module PlateCrop.

Import PlateDetection.
Local Open Scope Z_scope.
Local Open Scope outcome_scope.

Record HailoImage : Type := mkImage {
  image_width : Z;
  image_height : Z
}.

Record HailoCroppedImage : Type := mkCrop {
  crop_bbox : HailoBBox;
  target_width : Z;
  target_height : Z;
  detection : HailoDetection
}.

Definition OCR_WIDTH : Z := 200.
Definition OCR_HEIGHT : Z := 64.

(** The body of the loop, lines 29-51, for one detection: [None] is the
    [continue] of line 42, [Some crop] the crop that is pushed.  The
    four integers of [HailoBBox(x, y, w, h)] are stored as floats. *)
Definition crop_region (image : HailoImage) (det : HailoDetection)
  : outcome (option HailoCroppedImage) :=
  x <- static_cast_int (bbox_x (bbox det) * inject_Z (image_width image))%Q ;;
  y <- static_cast_int (bbox_y (bbox det) * inject_Z (image_height image))%Q ;;
  w <- static_cast_int (bbox_width (bbox det) * inject_Z (image_width image))%Q ;;
  h <- static_cast_int (bbox_height (bbox det) * inject_Z (image_height image))%Q ;;
  let x := Z.max 0 (Z.min x (image_width image - 1)) in
  let y := Z.max 0 (Z.min y (image_height image - 1)) in
  let w := Z.min w (image_width image - x) in
  let h := Z.min h (image_height image - y) in
  if (w <=? 0) || (h <=? 0) then Ok None
  else Ok (Some {| crop_bbox := mkBBox (inject_Z x) (inject_Z y)
                                       (inject_Z w) (inject_Z h);
                   target_width := OCR_WIDTH;
                   target_height := OCR_HEIGHT;
                   detection := det |}).

(** The loop of lines 28-52 over the remaining detections. *)
Fixpoint crop_loop (image : HailoImage) (detections : list HailoDetection)
         (cropped_plates : list HailoCroppedImage)
  : outcome (list HailoCroppedImage) :=
  match detections with
  | [] => Ok cropped_plates
  | det :: rest =>
      r <- crop_region image det ;;
      crop_loop image rest
                (match r with
                 | Some crop => cropped_plates ++ [crop]
                 | None => cropped_plates
                 end)
  end.

(** [crop_plates], lines 18-55. *)
Definition crop_plates (image : HailoImage) (detections : list HailoDetection)
  : outcome (list HailoCroppedImage) :=
  crop_loop image detections [].

End PlateCrop.

(* ================================================================= *)
(** ** plate_ocr.cpp *)

Module PlateOcr.

Local Open Scope Z_scope.
Local Open Scope outcome_scope.

Definition CHARSET : string := "0123456789ABCDEFGHIJKLMNOPQRSTUVWXYZ".
Definition CHARSET_length : Z := Z.of_nat (String.length CHARSET).
Definition BLANK_INDEX : Z := CHARSET_length.

Record OCRResult : Type := mkOCRResult {
  text : string;
  confidence : float;
  char_confidences : list float
}.

(** [CHARSET[i]]; only used under the guard [0 <= i < CHARSET.length()]. *)
Definition charset_at (i : Z) : ascii :=
  match String.get (Z.to_nat i) CHARSET with
  | Some c => c
  | None => Ascii.zero
  end.

(** [s += c]. *)
Definition push_char (s : string) (c : ascii) : string :=
  String.append s (String c EmptyString).

(** The inner loop, lines 42-48, of timestep [t], from class [c] for
    [n] more classes. *)
Fixpoint argmax_loop (output_data : list float) (t num_classes c : Z)
         (n : nat) (max_idx : Z) (max_prob : float) : outcome (Z * float) :=
  match n with
  | O => Ok (max_idx, max_prob)
  | S n' =>
      prob <- read output_data (t * num_classes + c) ;;
      if fgt prob max_prob
      then argmax_loop output_data t num_classes (c + 1) n' c prob
      else argmax_loop output_data t num_classes (c + 1) n' max_idx max_prob
  end.

(** Lines 39-48: the class picked at timestep [t] and its value. *)
Definition argmax (output_data : list float) (t num_classes : Z)
  : outcome (Z * float) :=
  first <- read output_data (t * num_classes) ;;
  argmax_loop output_data t num_classes 1 (Z.to_nat (num_classes - 1)) 0 first.

(** The variables the decoding loop updates. *)
Record decoder : Type := mkDecoder {
  result : OCRResult;
  prev_char : Z;
  total_conf : float;
  char_count : Z
}.

Definition decoder_init : decoder :=
  {| result := mkOCRResult "" 0%Q [];
     prev_char := BLANK_INDEX;
     total_conf := 0%Q;
     char_count := 0 |}.

(** Lines 50-60, once the class of the timestep is known. *)
Definition ctc_update (st : decoder) (max_idx : Z) (max_prob : float) : decoder :=
  let skip :=
    {| result := result st;
       prev_char := max_idx;
       total_conf := total_conf st;
       char_count := char_count st |} in
  if negb (max_idx =? BLANK_INDEX) && negb (max_idx =? prev_char st) then
    if max_idx <? CHARSET_length then
      {| result := mkOCRResult (push_char (text (result st)) (charset_at max_idx))
                               (confidence (result st))
                               (char_confidences (result st) ++ [max_prob]);
         prev_char := max_idx;
         total_conf := (total_conf st + max_prob)%Q;
         char_count := char_count st + 1 |}
    else skip
  else skip.

(** The loop of lines 37-61, from timestep [t] for [n] more timesteps. *)
Fixpoint ctc_loop (output_data : list float) (num_classes t : Z) (n : nat)
         (st : decoder) : outcome decoder :=
  match n with
  | O => Ok st
  | S n' =>
      '(max_idx, max_prob) <- argmax output_data t num_classes ;;
      ctc_loop output_data num_classes (t + 1) n' (ctc_update st max_idx max_prob)
  end.

(** [ctc_greedy_decode], lines 28-67. *)
Definition ctc_greedy_decode (output_data : list float)
           (timesteps num_classes : Z) : outcome OCRResult :=
  st <- ctc_loop output_data num_classes 0 (Z.to_nat timesteps) decoder_init ;;
  Ok {| text := text (result st);
        confidence := if 0 <? char_count st
                      then (total_conf st / inject_Z (char_count st))%Q
                      else 0%Q;
        char_confidences := char_confidences (result st) |}.

(** [ctc_beam_search_decode], lines 73-79: the greedy decoder. *)
Definition ctc_beam_search_decode (output_data : list float)
           (timesteps num_classes beam_width : Z) : outcome OCRResult :=
  ctc_greedy_decode output_data timesteps num_classes.

(** [s.find(c) != std::string::npos]. *)
Fixpoint contains (s : string) (c : ascii) : bool :=
  match s with
  | EmptyString => false
  | String d s' => if Ascii.eqb d c then true else contains s' c
  end.

(** The loop of lines 88-92 over the remaining characters of [text]. *)
Fixpoint clean_loop (text cleaned : string) : string :=
  match text with
  | EmptyString => cleaned
  | String c rest =>
      clean_loop rest (if contains CHARSET c then push_char cleaned c else cleaned)
  end.

(** [validate_plate_text], lines 85-100. *)
Definition validate_plate_text (text : string) : string :=
  let cleaned := clean_loop text "" in
  if (Z.of_nat (String.length cleaned) <? 4) || (8 <? Z.of_nat (String.length cleaned))
  then ""%string
  else cleaned.

(** The values stored in the [metadata] map of a classification. *)
Inductive meta_value : Type :=
| MetaFloats (l : list float)
| MetaText (s : string).

Record HailoClassification : Type := mkClassification {
  label : string;
  cls_confidence : float;
  metadata : list (string * meta_value)
}.

(** [m[key] = v] on the metadata map. *)
Fixpoint meta_set (m : list (string * meta_value)) (key : string) (v : meta_value)
  : list (string * meta_value) :=
  match m with
  | [] => [(key, v)]
  | (k, w) :: m' =>
      if String.eqb k key then (k, v) :: m' else (k, w) :: meta_set m' key v
  end.

Definition MIN_CONFIDENCE : float := 6 # 10.
Definition USE_BEAM_SEARCH : bool := false.

(** [plate_ocr], lines 109-152. *)
Definition plate_ocr (tensor : HailoTensor) : outcome (list HailoClassification) :=
  let data := tensor_data tensor in
  let timesteps := tensor_height tensor in
  let num_classes := tensor_width tensor in
  ocr_result <- (if USE_BEAM_SEARCH
                 then ctc_beam_search_decode data timesteps num_classes 5
                 else ctc_greedy_decode data timesteps num_classes) ;;
  let plate_text := validate_plate_text (text ocr_result) in
  if negb (String.eqb plate_text "") && fge (confidence ocr_result) MIN_CONFIDENCE
  then
    let metadata :=
      meta_set (meta_set [] "char_confidences"
                         (MetaFloats (char_confidences ocr_result)))
               "raw_text" (MetaText (text ocr_result)) in
    Ok [ {| label := plate_text;
            cls_confidence := confidence ocr_result;
            metadata := metadata |} ]
  else Ok [].

End PlateOcr.

(* ================================================================= *)
(** ** Notions used to state the properties *)

Module Spec.

Import PlateDetection.
Local Open Scope Q_scope.

Definition area (a : Detection) : Q := width a * height a.

(** Two corner-form boxes do not overlap when one lies entirely on one
    side of the other, along x or along y (sharing an edge counts as not
    overlapping). *)
Definition disjoint (a b : Detection) : Prop :=
  x a + width a <= x b \/ x b + width b <= x a \/
  y a + height a <= y b \/ y b + height b <= y a.



(** The confidence order decides the order of the list: detections of
    equal confidence are the same detection. *)
Definition ties_identical (l : list Detection) : Prop :=
  forall a b, In a l -> In b l -> confidence a == confidence b -> a = b.

(** Confidence descending. *)
Definition descending (l : list Detection) : Prop :=
  StronglySorted (fun a b => confidence b <= confidence a) l.

(** Equal confidences in input order: [l'] is [l] with the detections of
    every confidence in their original relative order. *)
Definition keeps_ties_in_order (l l' : list Detection) : Prop :=
  forall c, filter (fun d => Qeq_bool (confidence d) c) l'
            = filter (fun d => Qeq_bool (confidence d) c) l.

(** One row of the detection tensor: the five columns the decoder
    uses. *)
Record Row : Type := mkRow {
  row_cx : float;
  row_cy : float;
  row_w : float;
  row_h : float;
  row_conf : float
}.

Definition at_index (data : list float) (i : Z) : float :=
  nth (Z.to_nat i) data 0.

(** Row [i] of a tensor with [stride] columns per row. *)
Definition tensor_row (data : list float) (stride i : Z) : Row :=
  {| row_cx := at_index data (i * stride + 0);
     row_cy := at_index data (i * stride + 1);
     row_w := at_index data (i * stride + 2);
     row_h := at_index data (i * stride + 3);
     row_conf := at_index data (i * stride + 4) |}.

(** The row indices [i, i+1, ..., i+n-1]. *)
Definition indices_from (i : Z) (n : nat) : list Z :=
  map (fun j => (i + Z.of_nat j)%Z) (seq 0 n).

Definition row_indices (n : Z) : list Z := indices_from 0 (Z.to_nat n).

(** The rows of the tensor, in row order. *)
Definition tensor_rows (data : list float) (n stride : Z) : list Row :=
  map (tensor_row data stride) (row_indices n).

Definition passes (tau : float) (r : Row) : bool := fge (row_conf r) tau.

(** Center form to corner form: origin = center - size/2, size kept. *)
Definition corner_form (r : Row) : Detection :=
  {| x := row_cx r - row_w r / 2;
     y := row_cy r - row_h r / 2;
     width := row_w r;
     height := row_h r;
     confidence := row_conf r;
     class_id := 0 |}.

(** Position [i] lies inside the buffer. *)
Definition in_buffer (data : list float) (i : Z) : bool :=
  ((0 <=? i) && (i <? Z.of_nat (length data)))%Z.

(** The five positions read for row [i] lie inside the buffer. *)
Definition row_in_buffer (data : list float) (stride i : Z) : bool :=
  forallb (fun k => in_buffer data (i * stride + k)%Z) [0; 1; 2; 3; 4]%Z.

Definition rows_in_buffer (data : list float) (n stride : Z) : bool :=
  forallb (row_in_buffer data stride) (row_indices n).

(** A normalized coordinate scaled to pixels and truncated. *)
Definition scaled (v : float) (n : Z) : Z := Qtrunc (v * inject_Z n).

Definition clamped_x (image : PlateCrop.HailoImage) (det : HailoDetection) : Z :=
  Z.max 0 (Z.min (scaled (bbox_x (bbox det)) (PlateCrop.image_width image))
                 (PlateCrop.image_width image - 1)).

Definition clamped_y (image : PlateCrop.HailoImage) (det : HailoDetection) : Z :=
  Z.max 0 (Z.min (scaled (bbox_y (bbox det)) (PlateCrop.image_height image))
                 (PlateCrop.image_height image - 1)).

Definition clamped_w (image : PlateCrop.HailoImage) (det : HailoDetection) : Z :=
  Z.min (scaled (bbox_width (bbox det)) (PlateCrop.image_width image))
        (PlateCrop.image_width image - clamped_x image det).

Definition clamped_h (image : PlateCrop.HailoImage) (det : HailoDetection) : Z :=
  Z.min (scaled (bbox_height (bbox det)) (PlateCrop.image_height image))
        (PlateCrop.image_height image - clamped_y image det).


Definition fits_int (z : Z) : bool := ((INT_MIN <=? z) && (z <=? INT_MAX))%Z.

(** The four scaled coordinates of the detection are [int] values. *)
Definition castable (image : PlateCrop.HailoImage) (det : HailoDetection) : bool :=
  fits_int (scaled (bbox_x (bbox det)) (PlateCrop.image_width image))
  && fits_int (scaled (bbox_y (bbox det)) (PlateCrop.image_height image))
  && fits_int (scaled (bbox_width (bbox det)) (PlateCrop.image_width image))
  && fits_int (scaled (bbox_height (bbox det)) (PlateCrop.image_height image)).


End Spec.

(* ================================================================= *)
(** ** Notions used to state the recognition properties *)

Module OcrSpec.

Import PlateOcr.
Local Open Scope Z_scope.

(** Class [idx], of value [val], is the pick of timestep [t] among [C]
    classes: its value is maximal, and strictly above the value of every
    class of lower index. *)
Definition is_argmax (data : list float) (t C idx : Z) (val : float) : Prop :=
  0 <= idx < C /\
  val = Spec.at_index data (t * C + idx) /\
  (forall c, 0 <= c < C -> (Spec.at_index data (t * C + c) <= val)%Q) /\
  (forall c, 0 <= c < idx -> (Spec.at_index data (t * C + c) < val)%Q).

(** [picks] are the picks, class and value, of the timesteps
    [t, t+1, ...]. *)
Definition picks_from (data : list float) (C t : Z) (picks : list (Z * float)) : Prop :=
  Forall2 (fun u p => is_argmax data u C (fst p) (snd p))
          (Spec.indices_from t (length picks)) picks.

(** [picks] are the picks of the [T] timesteps of the buffer. *)
Definition picks_of (data : list float) (T C : Z) (picks : list (Z * float)) : Prop :=
  length picks = Z.to_nat T /\ picks_from data C 0 picks.

(** The class differs from the class of the previous timestep, if there
    is one. *)
Definition differs (prev : option Z) (i : Z) : bool :=
  match prev with
  | Some p => negb (i =? p)
  | None => true
  end.

(** CTC collapsing: the picks that are emitted, those whose class
    [emits] and differs from the class of the previous timestep. *)
Fixpoint collapse (emits : Z -> bool) (prev : option Z) (picks : list (Z * float))
  : list (Z * float) :=
  match picks with
  | [] => []
  | p :: rest =>
      (if emits (fst p) && differs prev (fst p) then [p] else [])
        ++ collapse emits (Some (fst p)) rest
  end.

(** The class is not the blank class. *)
Definition not_blank (blank i : Z) : bool := negb (i =? blank).

(** The class is an index into [CHARSET]. *)
Definition is_char (i : Z) : bool := i <? CHARSET_length.

(** The characters of a list of picks. *)
Definition chars (ps : list (Z * float)) : string :=
  string_of_list_ascii (map (fun p => charset_at (fst p)) ps).

Definition Qsum (l : list Q) : Q := fold_right Qplus 0%Q l.

(** Sum over count, 0 for no value at all. *)
Definition mean (l : list Q) : Q :=
  match l with
  | [] => 0%Q
  | _ => (Qsum l / inject_Z (Z.of_nat (length l)))%Q
  end.

(** The buffer holds the [T] x [C] values of the recognition tensor,
    and there is at least one class. *)
Definition fits (data : list float) (T C : Z) : Prop :=
  1 <= C /\ T * C <= Z.of_nat (length data).

(** A character of the valid set. *)
Definition valid_char (c : ascii) : Prop := In c (list_ascii_of_string CHARSET).

Definition all_valid (s : string) : Prop :=
  Forall valid_char (list_ascii_of_string s).

(** [s] without the characters outside the valid set. *)
Fixpoint strip (s : string) : string :=
  match s with
  | EmptyString => EmptyString
  | String c s' => if contains CHARSET c then String c (strip s') else strip s'
  end.

(** A buffer of one-hot rows: row [t] holds 1 at the class given for
    [t] and 0 elsewhere. *)
Definition one_hot (C : nat) (classes : list nat) : list float :=
  flat_map (fun k => map (fun c => if Nat.eqb c k then 1%Q else 0%Q) (seq 0 C))
           classes.

(** The decoder variables after the updates for a list of picks. *)
Definition run_decoder (picks : list (Z * float)) (st : decoder) : decoder :=
  fold_left (fun st p => ctc_update st (fst p) (snd p)) picks st.


End OcrSpec.

(* ================================================================= *)
(** ** Sample inputs *)

Module Samples.

Import PlateDetection.
Local Open Scope Q_scope.




(** A box that does not touch [corner_box]. *)
Definition far_box : Detection :=
  {| x := 1 # 2; y := 1 # 2; width := 1 # 4; height := 1 # 4;
     confidence := 8 # 10; class_id := 0 |}.

(** Two boxes of equal confidence that overlap by more than half. *)
Definition left_box : Detection :=
  {| x := 0; y := 0; width := 1 # 2; height := 1 # 2;
     confidence := 9 # 10; class_id := 0 |}.

Definition right_box : Detection :=
  {| x := 1 # 8; y := 0; width := 1 # 2; height := 1 # 2;
     confidence := 9 # 10; class_id := 0 |}.

(** Two boxes of equal confidence that do not touch. *)
Definition north_box : Detection :=
  {| x := 0; y := 0; width := 1 # 4; height := 1 # 4;
     confidence := 9 # 10; class_id := 0 |}.

Definition south_box : Detection :=
  {| x := 1 # 2; y := 1 # 2; width := 1 # 4; height := 1 # 4;
     confidence := 9 # 10; class_id := 0 |}.

(** One row, centre (0.5, 0.5), size 0.2 x 0.1, confidence 0.9. *)
Definition one_row : list float := [5 # 10; 5 # 10; 2 # 10; 1 # 10; 9 # 10].

(** A row below the threshold, then [one_row]. *)
Definition two_rows : list float :=
  [1 # 4; 1 # 4; 1 # 8; 1 # 8; 1 # 4] ++ one_row.

Definition frame : PlateCrop.HailoImage := PlateCrop.mkImage 800 400.

(** The detection decoded from [one_row]. *)
Definition centred : HailoDetection :=
  to_hailo {| x := 4 # 10; y := 45 # 100; width := 2 # 10; height := 1 # 10;
              confidence := 9 # 10; class_id := 0 |}.

(** A box hanging over the right and bottom borders. *)
Definition overhanging : HailoDetection :=
  to_hailo {| x := 9 # 10; y := 9 # 10; width := 1 # 2; height := 1 # 2;
              confidence := 9 # 10; class_id := 0 |}.

(** A box left of the frame, less than one pixel wide. *)
Definition sliver : HailoDetection :=
  to_hailo {| x := -1; y := 1 # 2; width := 1 # 1000; height := 1 # 2;
              confidence := 9 # 10; class_id := 0 |}.

(** Six timesteps of three classes, picks 0, 0, 2, 1, 1, 2. *)
Definition three_classes : list float := OcrSpec.one_hot 3 [0; 0; 2; 1; 1; 2]%nat.

(** Six timesteps of 37 classes, picks 10, 10, 36, 11, 11, 36. *)
Definition all_classes : list float :=
  OcrSpec.one_hot 37 [10; 10; 36; 11; 11; 36]%nat.


(** Three timesteps of 37 classes, each picking class 7. *)
Definition sevens : list float := OcrSpec.one_hot 37 [7; 7; 7]%nat.

(** Seven timesteps of 37 classes that spell A, B, 1, 2 between blanks,
    every pick with value 1. *)
Definition plate_tensor : HailoTensor :=
  mkTensor (OcrSpec.one_hot 37 [10; 36; 11; 36; 1; 36; 2]%nat) 37 7.

(** The same tensor with every value halved. *)
Definition faint_tensor : HailoTensor :=
  mkTensor (map (Qmult (1 # 2)) (tensor_data plate_tensor)) 37 7.

End Samples.

(* ================================================================= *)
(** ** Further notions: kept crops, positions read by the decoder *)

Module Shapes.

Import PlateDetection.
Local Open Scope Z_scope.

(** The detection gives a crop: its clamped width and height are both
    positive. *)
Definition keeps (image : PlateCrop.HailoImage) (det : HailoDetection) : bool :=
  negb ((Spec.clamped_w image det <=? 0) || (Spec.clamped_h image det <=? 0)).

(** The positions read at timestep [t] of a recognition tensor of [C]
    classes lie inside the buffer: [t * C] for class 0, which is always
    read, and [t * C + c] for the classes [1 <= c < C]. *)
Definition timestep_in_buffer (data : list float) (C t : Z) : bool :=
  forallb (fun c => Spec.in_buffer data (t * C + c))
          (Spec.indices_from 0 (Z.to_nat (Z.max 1 C))).

Definition timesteps_in_buffer (data : list float) (T C : Z) : bool :=
  forallb (timestep_in_buffer data C) (Spec.row_indices T).

(** The class of the last pick, [prev] when there is no pick. *)
Definition last_class (prev : option Z) (picks : list (Z * float)) : option Z :=
  fold_left (fun _ p => Some (fst p)) picks prev.

End Shapes.

(* ================================================================= *)
(** * Properties *)

(** ** Comparisons and division *)

Module NumFacts.

Local Open Scope Q_scope.

Lemma flt_true (a b : float) : flt a b = true <-> a < b.
Proof.
  unfold flt. rewrite negb_true_iff, <- not_true_iff_false, Qle_bool_iff.
  split; [apply Qnot_le_lt | apply Qlt_not_le].
Qed.

Lemma flt_false (a b : float) : flt a b = false <-> b <= a.
Proof.
  unfold flt. rewrite negb_false_iff. apply Qle_bool_iff.
Qed.

Lemma fge_true (a b : float) : fge a b = true <-> b <= a.
Proof. apply Qle_bool_iff. Qed.

Lemma fge_false (a b : float) : fge a b = false <-> a < b.
Proof.
  unfold fge. rewrite <- not_true_iff_false, Qle_bool_iff.
  split; [apply Qnot_le_lt | apply Qlt_not_le].
Qed.


(** Case analysis on a float comparison, with the order fact it decides. *)
Lemma flt_cases (a b : float) :
  (flt a b = true /\ a < b) \/ (flt a b = false /\ b <= a).
Proof.
  destruct (flt a b) eqn:E.
  - left. split; [reflexivity | now apply flt_true].
  - right. split; [reflexivity | now apply flt_false].
Qed.

Lemma std_max_cases (a b : float) :
  (a < b /\ std_max a b = b) \/ (b <= a /\ std_max a b = a).
Proof.
  unfold std_max. destruct (flt_cases a b) as [[-> H] | [-> H]]; auto.
Qed.

Lemma std_min_cases (a b : float) :
  (b < a /\ std_min a b = b) \/ (a <= b /\ std_min a b = a).
Proof.
  unfold std_min. destruct (flt_cases b a) as [[-> H] | [-> H]]; auto.
Qed.



Lemma xeq_refl (v : xfloat) : xeq v v.
Proof. destruct v; simpl; auto. reflexivity. Qed.

Lemma fdiv_finite (a b : float) : ~ b == 0 -> fdiv a b = Finite (a / b).
Proof.
  intros Hb. unfold fdiv.
  destruct (Qeq_bool b 0) eqn:E; [| reflexivity].
  apply Qeq_bool_iff in E. contradiction.
Qed.

Lemma fdiv_zero_zero (a b : float) : a == 0 -> b == 0 -> fdiv a b = NaN.
Proof.
  intros Ha Hb. unfold fdiv.
  apply Qeq_bool_iff in Hb. rewrite Hb.
  apply Qeq_alt in Ha. now rewrite Ha.
Qed.


Lemma xgt_finite (q t : float) : xgt (Finite q) t = false <-> q <= t.
Proof. simpl. unfold fgt. apply flt_false. Qed.



End NumFacts.

(** ** Intersection over union *)

Module IouFacts.

Import PlateDetection Spec Samples NumFacts.
Local Open Scope Q_scope.






(** Past the guard of line 62 the intersection rectangle lies inside
    both boxes. *)
Lemma past_guard (a b : Detection) :
  let x1 := std_max (x a) (x b) in
  let y1 := std_max (y a) (y b) in
  let x2 := std_min (x a + width a) (x b + width b) in
  let y2 := std_min (y a + height a) (y b + height b) in
  flt x2 x1 || flt y2 y1 = false ->
  (0 <= x2 - x1 /\ x2 - x1 <= width a /\ x2 - x1 <= width b) /\
  (0 <= y2 - y1 /\ y2 - y1 <= height a /\ y2 - y1 <= height b).
Proof.
  intros x1 y1 x2 y2 G.
  apply orb_false_iff in G. destruct G as [Gx Gy].
  apply flt_false in Gx. apply flt_false in Gy.
  subst x1 y1 x2 y2.
  destruct (std_max_cases (x a) (x b)) as [[? Ex1] | [? Ex1]];
    destruct (std_min_cases (x a + width a) (x b + width b)) as [[? Ex2] | [? Ex2]];
    rewrite Ex1, Ex2 in *;
    destruct (std_max_cases (y a) (y b)) as [[? Ey1] | [? Ey1]];
    destruct (std_min_cases (y a + height a) (y b + height b)) as [[? Ey2] | [? Ey2]];
    rewrite Ey1, Ey2 in *; repeat split; lra.
Qed.

(** [compute_iou] returns a number between 0 and 1, or NaN; NaN only
    for two boxes of area zero. *)
Lemma compute_iou_range (a b : Detection) :
  (exists q, compute_iou a b = Finite q /\ 0 <= q /\ q <= 1) \/
  (compute_iou a b = NaN /\ area a == 0 /\ area b == 0).
Proof.
  unfold compute_iou, area. cbv zeta.
  pose proof (past_guard a b) as P. cbv zeta in P.
  destruct (flt _ _ || flt _ _) eqn:G.
  - left. exists 0. repeat split; lra.
  - specialize (P eq_refl).
    set (dx := std_min (x a + width a) (x b + width b) - std_max (x a) (x b)) in *.
    set (dy := std_min (y a + height a) (y b + height b) - std_max (y a) (y b)) in *.
    destruct P as [(Hx0 & Hxa & Hxb) (Hy0 & Hya & Hyb)].
    assert (Hi0 : 0 <= dx * dy) by nra.
    assert (Hia : dx * dy <= width a * height a) by nra.
    assert (Hib : dx * dy <= width b * height b) by nra.
    destruct (Qeq_dec (width a * height a + width b * height b - dx * dy) 0) as [U | U].
    + right. rewrite fdiv_zero_zero; [| lra | exact U].
      repeat split; lra.
    + left. rewrite (fdiv_finite _ U). eexists. split; [reflexivity |].
      assert (Upos : 0 < width a * height a + width b * height b - dx * dy) by lra.
      split.
      * apply Qle_shift_div_l; [exact Upos | lra].
      * apply Qle_shift_div_r; [exact Upos | lra].
Qed.

Lemma compute_iou_disjoint (a b : Detection) :
  disjoint a b -> ~ area a + area b == 0 ->
  xeq (compute_iou a b) (Finite 0).
Proof.
  unfold disjoint, area, compute_iou. cbv zeta. intros D U.
  pose proof (past_guard a b) as P. cbv zeta in P.
  destruct (flt _ _ || flt _ _) eqn:G.
  - simpl. reflexivity.
  - specialize (P eq_refl).
    set (dx := std_min (x a + width a) (x b + width b) - std_max (x a) (x b)) in *.
    set (dy := std_min (y a + height a) (y b + height b) - std_max (y a) (y b)) in *.
    assert (Z0 : dx == 0 \/ dy == 0).
    { subst dx dy.
      destruct (std_max_cases (x a) (x b)) as [[? Ex1] | [? Ex1]];
        destruct (std_min_cases (x a + width a) (x b + width b)) as [[? Ex2] | [? Ex2]];
        rewrite Ex1, Ex2 in *;
        destruct (std_max_cases (y a) (y b)) as [[? Ey1] | [? Ey1]];
        destruct (std_min_cases (y a + height a) (y b + height b)) as [[? Ey2] | [? Ey2]];
        rewrite Ey1, Ey2 in *;
        destruct D as [D | [D | [D | D]]];
        solve [left; lra | right; lra]. }
    assert (I0 : dx * dy == 0).
    { destruct Z0 as [E | E]; rewrite E; ring. }
    rewrite fdiv_finite.
    + simpl. rewrite I0. unfold Qdiv. ring.
    + rewrite I0. lra.
Qed.




End IouFacts.

(** ** Sorting by confidence *)

Module SortFacts.

Import PlateDetection Spec NumFacts.
Local Open Scope Q_scope.

Lemma conf_gt_false (a b : Detection) :
  conf_gt b a = false <-> confidence b <= confidence a.
Proof. unfold conf_gt, fgt. apply flt_false. Qed.

Lemma contract_descending (sort : list Detection -> list Detection) :
  sort_contract sort -> forall l, descending (sort l).
Proof.
  intros C l. unfold descending.
  pose proof (sort_orders C l) as S.
  induction S as [| a l' S IH F]; constructor; auto.
  eapply Forall_impl; [| exact F].
  intros b Hb. now apply conf_gt_false.
Qed.

Lemma descending_In (a : Detection) (l : list Detection) :
  descending (a :: l) -> forall b, In b l -> confidence b <= confidence a.
Proof.
  intros D b Hb. apply StronglySorted_inv in D. destruct D as [_ F].
  rewrite Forall_forall in F. now apply F.
Qed.

(** Two descending arrangements of the same detections coincide when
    ties are between identical detections only. *)
Lemma descending_unique (l1 : list Detection) :
  forall l2, Permutation l1 l2 -> descending l1 -> descending l2 ->
             ties_identical l1 -> l1 = l2.
Proof.
  induction l1 as [| a l1 IH]; intros l2 P D1 D2 T.
  - now apply Permutation_nil in P.
  - destruct l2 as [| b l2].
    + apply Permutation_sym, Permutation_nil in P. discriminate.
    + assert (E : a = b).
      { assert (Ia : In a (b :: l2)) by (apply (Permutation_in _ P); now left).
        assert (Ib : In b (a :: l1))
          by (apply (Permutation_in _ (Permutation_sym P)); now left).
        destruct Ia as [Ia | Ia]; [now symmetry |].
        destruct Ib as [Ib | Ib]; [exact Ib |].
        apply T; [now left | now right |].
        apply Qle_antisym.
        - now apply (descending_In D2).
        - now apply (descending_In D1). }
      subst b. f_equal. apply IH.
      * now apply Permutation_cons_inv in P.
      * now apply StronglySorted_inv in D1.
      * now apply StronglySorted_inv in D2.
      * intros u v Hu Hv. apply T; now right.
Qed.

Section InsertionSort.

Variable before : Detection -> Detection -> bool.
Hypothesis before_true :
  forall d e, before d e = true -> confidence e <= confidence d.
Hypothesis before_false :
  forall d e, before d e = false -> confidence d <= confidence e.

Lemma insert_by_perm (d : Detection) (l : list Detection) :
  Permutation (d :: l) (insert_by before d l).
Proof.
  induction l as [| e l IH]; simpl; [reflexivity |].
  destruct (before d e); [reflexivity |].
  rewrite perm_swap. now constructor.
Qed.

Lemma insert_by_sorted (d : Detection) (l : list Detection) :
  StronglySorted (fun a b => conf_gt b a = false) l ->
  StronglySorted (fun a b => conf_gt b a = false) (insert_by before d l).
Proof.
  induction 1 as [| e l S IH F]; simpl.
  - repeat constructor.
  - destruct (before d e) eqn:B.
    + constructor; [now constructor |].
      apply before_true in B.
      constructor; [now apply conf_gt_false |].
      eapply Forall_impl; [| exact F].
      intros b Hb. apply conf_gt_false. apply conf_gt_false in Hb.
      now apply Qle_trans with (confidence e).
    + constructor; [exact IH |].
      apply (Permutation_Forall (insert_by_perm d l)).
      constructor; [| exact F].
      apply conf_gt_false. now apply before_false.
Qed.

Lemma sort_by_contract : sort_contract (sort_by before).
Proof.
  split; intros l; induction l as [| d l IH]; simpl.
  - constructor.
  - rewrite <- insert_by_perm. now constructor.
  - constructor.
  - now apply insert_by_sorted.
Qed.

End InsertionSort.

Lemma stable_sort_contract : sort_contract stable_sort.
Proof.
  apply sort_by_contract; intros d e H.
  - now apply fge_true in H.
  - apply fge_false in H. now apply Qlt_le_weak.
Qed.

Lemma reversing_sort_contract : sort_contract reversing_sort.
Proof.
  apply sort_by_contract; intros d e H; unfold conf_gt, fgt in H.
  - apply flt_true in H. now apply Qlt_le_weak.
  - now apply flt_false in H.
Qed.

End SortFacts.

(** ** Greedy suppression *)

Module NmsFacts.

Import PlateDetection Spec Samples NumFacts IouFacts SortFacts.
Local Open Scope Q_scope.

(** A flag left clear by the inner loop was clear before, and the
    detection it belongs to does not overlap [d] above the threshold. *)
Lemma suppress_clear (thr : float) (d : Detection) (ds : list Detection) :
  forall sup i e,
    nth_error (suppress thr d ds sup) i = Some false ->
    nth_error ds i = Some e ->
    nth_error sup i = Some false /\ xgt (compute_iou d e) thr = false.
Proof.
  induction ds as [| e' ds IH]; intros sup i e Hs He.
  - destruct i; discriminate.
  - destruct sup as [| s sup]; simpl in Hs.
    + destruct i; discriminate.
    + destruct i as [| i]; simpl in *.
      * injection He as <-. destruct s; [discriminate |].
        injection Hs as Hs. auto.
      * now apply IH.
Qed.

(** Every detection kept by the outer loop sits at an index whose flag
    was clear on entry. *)
Lemma nms_loop_kept (thr : float) (ds : list Detection) :
  forall sup e,
    In e (nms_loop thr ds sup) ->
    exists i, nth_error ds i = Some e /\ nth_error sup i = Some false.
Proof.
  induction ds as [| d ds IH]; intros sup e H; [contradiction |].
  destruct sup as [| s sup]; [contradiction |]. simpl in H.
  destruct s.
  - destruct (IH _ _ H) as (i & Hd & Hs). now exists (S i).
  - destruct H as [<- | H]; [now exists O |].
    destruct (IH _ _ H) as (i & Hd & Hs).
    exists (S i). split; [exact Hd |].
    now destruct (suppress_clear _ _ _ _ _ Hs Hd).
Qed.

Lemma nms_loop_In (thr : float) (ds : list Detection) (sup : list bool) (e : Detection) :
  In e (nms_loop thr ds sup) -> In e ds.
Proof.
  intros H. destruct (nms_loop_kept _ _ _ _ H) as (i & Hd & _).
  eapply nth_error_In; eauto.
Qed.


Lemma nms_loop_descending (thr : float) (ds : list Detection) :
  forall sup, descending ds -> descending (nms_loop thr ds sup).
Proof.
  unfold descending.
  induction ds as [| d ds IH]; intros sup D; [constructor |].
  destruct sup as [| s sup]; [constructor |]. simpl.
  apply StronglySorted_inv in D. destruct D as [D F].
  destruct s; [now apply IH |].
  constructor; [now apply IH |].
  apply Forall_forall. intros e He.
  rewrite Forall_forall in F. apply F. eapply nms_loop_In; eauto.
Qed.

Lemma suppress_none (thr : float) (d : Detection) (ds : list Detection) :
  Forall (fun e => xgt (compute_iou d e) thr = false) ds ->
  suppress thr d ds (repeat false (length ds)) = repeat false (length ds).
Proof.
  induction 1 as [| e ds He F IH]; simpl; [reflexivity |].
  now rewrite He, IH.
Qed.

(** Without a pair above the threshold the loop keeps everything. *)
Lemma nms_loop_all (thr : float) (ds : list Detection) :
  ForallOrdPairs (fun a b => xgt (compute_iou a b) thr = false) ds ->
  nms_loop thr ds (repeat false (length ds)) = ds.
Proof.
  induction 1 as [| d ds F P IH]; simpl; [reflexivity |].
  now rewrite suppress_none, IH.
Qed.






Lemma apply_nms_descending (sort : list Detection -> list Detection)
      (l : list Detection) (thr : float) :
  sort_contract sort -> descending (apply_nms sort l thr).
Proof.
  intros C. apply nms_loop_descending. now apply contract_descending.
Qed.

Lemma apply_nms_In (sort : list Detection -> list Detection)
      (l : list Detection) (thr : float) (e : Detection) :
  sort_contract sort -> In e (apply_nms sort l thr) -> In e l.
Proof.
  intros C H. apply nms_loop_In in H.
  now apply (Permutation_in _ (Permutation_sym (sort_permutes C l))).
Qed.


(** Membership in a literal list, and the confidences of the samples. *)
Ltac ties_by_computation :=
  intros ? ? Ha Hb E; simpl in Ha, Hb;
  repeat match goal with
         | H : _ \/ _ |- _ => destruct H
         | H : False |- _ => contradiction
         end;
  subst; try reflexivity; vm_compute in E; discriminate.

(** C3, as the code has it: the detections are processed in the order
    [std::sort] leaves them in, a rearrangement of the input with the
    confidences descending.  The standard does not fix the order of
    equal confidences; when the detections of equal confidence are
    identical, every sort meeting the contract yields the same order
    and the same suppression result. *)
Theorem nms_processing_order
        (sort sort' : list Detection -> list Detection)
        (l : list Detection) (thr : float) :
  sort_contract sort -> sort_contract sort' ->
  Permutation l (sort l) /\
  descending (sort l) /\
  apply_nms sort l thr
    = nms_loop thr (sort l) (repeat false (length (sort l))) /\
  (ties_identical l ->
   sort l = sort' l /\ apply_nms sort l thr = apply_nms sort' l thr).
Proof.
  intros C C'.
  split; [apply (sort_permutes C) |].
  split; [now apply contract_descending |].
  split; [reflexivity |].
  intros T.
  assert (E : sort l = sort' l).
  { apply descending_unique.
    - rewrite <- (sort_permutes C l). apply (sort_permutes C').
    - now apply contract_descending.
    - now apply contract_descending.
    - intros a b Ha Hb. apply T;
        eapply Permutation_in; try eassumption;
        apply Permutation_sym, (sort_permutes C). }
  split; [exact E |]. unfold apply_nms. now rewrite E.
Qed.

Lemma nms_processing_order_witness :
  Permutation [far_box; left_box] (stable_sort [far_box; left_box]) /\
  descending (stable_sort [far_box; left_box]) /\
  stable_sort [far_box; left_box] = reversing_sort [far_box; left_box].
Proof.
  destruct (nms_processing_order [far_box; left_box] NMS_THRESHOLD
              stable_sort_contract reversing_sort_contract)
    as (P & D & _ & T).
  split; [exact P |]. split; [exact D |].
  apply T. ties_by_computation.
Defined.

(** C3 as stated fails: [reversing_sort] meets everything the standard
    asks of [std::sort], and with it the two detections of equal
    confidence [left_box], [right_box] are processed in the reverse of
    their input order, so that [right_box] survives where a stable sort
    keeps [left_box]. *)
Lemma nms_ties_not_stable :
  sort_contract reversing_sort /\
  reversing_sort [left_box; right_box] = [right_box; left_box] /\
  ~ keeps_ties_in_order [left_box; right_box]
      (reversing_sort [left_box; right_box]) /\
  apply_nms reversing_sort [left_box; right_box] NMS_THRESHOLD = [right_box] /\
  apply_nms stable_sort [left_box; right_box] NMS_THRESHOLD = [left_box].
Proof.
  split; [apply reversing_sort_contract |].
  split; [reflexivity |].
  split; [| split; reflexivity].
  intros K. specialize (K (9 # 10)). vm_compute in K. discriminate.
Qed.




End NmsFacts.

(** ** Detection decoding *)

Module DecoderFacts.

Import PlateDetection Spec Samples NumFacts.
Local Open Scope Z_scope.

Lemma read_spec (data : list float) (i : Z) :
  read data i = if in_buffer data i then Ok (at_index data i)
                else Undefined ReadOutOfBounds.
Proof.
  unfold read, in_buffer, at_index.
  destruct (Z.ltb_spec i 0) as [Hneg | Hpos].
  - destruct (Z.leb_spec 0 i); [lia | reflexivity].
  - destruct (Z.leb_spec 0 i); [| lia]. simpl.
    destruct (Z.ltb_spec i (Z.of_nat (length data))) as [Hlt | Hge].
    + destruct (nth_error data (Z.to_nat i)) eqn:E.
      * now rewrite (nth_error_nth _ _ _ E).
      * apply nth_error_None in E. lia.
    + destruct (nth_error data (Z.to_nat i)) eqn:E; [| reflexivity].
      assert (nth_error data (Z.to_nat i) <> None) as N by congruence.
      apply nth_error_Some in N. lia.
Qed.

Lemma decode_row_spec (tau : float) (data : list float) (stride i : Z)
      (raw : list Detection) :
  decode_row tau data stride i raw =
  if row_in_buffer data stride i
  then Ok (raw ++ map corner_form (filter (passes tau) [tensor_row data stride i]))
  else Undefined ReadOutOfBounds.
Proof.
  unfold decode_row, row_in_buffer. simpl forallb.
  rewrite !read_spec.
  destruct (in_buffer data (i * stride + 0)); [| reflexivity].
  destruct (in_buffer data (i * stride + 1)); [| reflexivity].
  destruct (in_buffer data (i * stride + 2)); [| reflexivity].
  destruct (in_buffer data (i * stride + 3)); [| reflexivity].
  destruct (in_buffer data (i * stride + 4)); [| reflexivity].
  simpl. unfold passes. simpl.
  destruct (fge (at_index data (i * stride + 4)) tau); simpl.
  - reflexivity.
  - now rewrite app_nil_r.
Qed.

Lemma indices_from_S (i : Z) (n : nat) :
  indices_from i (S n) = i :: indices_from (i + 1) n.
Proof.
  unfold indices_from. simpl. f_equal; [lia |].
  rewrite <- seq_shift, map_map. apply map_ext. intros j. lia.
Qed.

Lemma decode_loop_spec (tau : float) (data : list float) (stride : Z) (n : nat) :
  forall i raw,
    decode_loop tau data stride i n raw =
    if forallb (row_in_buffer data stride) (indices_from i n)
    then Ok (raw ++ map corner_form
                       (filter (passes tau)
                               (map (tensor_row data stride) (indices_from i n))))
    else Undefined ReadOutOfBounds.
Proof.
  induction n as [| n IH]; intros i raw.
  - simpl. now rewrite app_nil_r.
  - rewrite indices_from_S. simpl decode_loop. rewrite decode_row_spec.
    simpl forallb. destruct (row_in_buffer data stride i); [| reflexivity].
    simpl bind. rewrite IH.
    destruct (forallb _ (indices_from (i + 1) n)); [| reflexivity].
    simpl. f_equal. rewrite <- app_assoc. f_equal.
    destruct (passes tau (tensor_row data stride i)); reflexivity.
Qed.

(** The parsing loop returns the rows that pass the threshold, in row
    order and in corner form, when every position it reads lies inside
    the buffer, and reads outside the buffer otherwise. *)
Lemma decode_rows_spec (tau : float) (data : list float) (n stride : Z) :
  decode_rows tau data n stride =
  if rows_in_buffer data n stride
  then Ok (map corner_form (filter (passes tau) (tensor_rows data n stride)))
  else Undefined ReadOutOfBounds.
Proof. unfold decode_rows. now rewrite decode_loop_spec. Qed.

Lemma In_row_indices (n i : Z) : In i (row_indices n) <-> 0 <= i < n.
Proof.
  unfold row_indices, indices_from. rewrite in_map_iff. split.
  - intros (j & <- & Hj). apply in_seq in Hj. lia.
  - intros H. exists (Z.to_nat i). split; [lia |]. apply in_seq. lia.
Qed.

(** A buffer that holds [n] rows of [stride >= 5] columns covers every
    position the loop reads. *)
Lemma shape_in_buffer (data : list float) (n stride : Z) :
  5 <= stride -> n * stride <= Z.of_nat (length data) ->
  rows_in_buffer data n stride = true.
Proof.
  intros Hs Hlen. unfold rows_in_buffer.
  apply forallb_forall. intros i Hi. apply In_row_indices in Hi.
  unfold row_in_buffer. apply forallb_forall. intros k Hk.
  unfold in_buffer. apply andb_true_iff.
  assert (0 <= k <= 4) by (simpl in Hk; lia).
  split; [apply Z.leb_le | apply Z.ltb_lt]; nia.
Qed.

(** C5: on a tensor of [n] rows of [stride >= 5] columns that fits its
    buffer, the detections that stand before suppression are the rows
    whose column 4 is at least the threshold, all of them and no other,
    in row order, each in corner form. *)
Theorem decode_rows_exact (tau : float) (data : list float) (n stride : Z) :
  5 <= stride -> n * stride <= Z.of_nat (length data) ->
  exists raw,
    decode_rows tau data n stride = Ok raw /\
    raw = map corner_form (filter (passes tau) (tensor_rows data n stride)) /\
    (forall d, In d raw -> (tau <= confidence d)%Q) /\
    (forall i, 0 <= i < n ->
               (tau <= row_conf (tensor_row data stride i))%Q ->
               In (corner_form (tensor_row data stride i)) raw).
Proof.
  intros Hs Hlen. eexists.
  split; [rewrite decode_rows_spec, shape_in_buffer by assumption; reflexivity |].
  split; [reflexivity |].
  split.
  - intros d Hd. apply in_map_iff in Hd. destruct Hd as (r & <- & Hr).
    apply filter_In in Hr. destruct Hr as [_ Hr].
    now apply fge_true in Hr.
  - intros i Hi Hc. apply in_map, filter_In. split.
    + unfold tensor_rows. apply in_map. now apply In_row_indices.
    + now apply fge_true.
Qed.

Lemma decode_rows_exact_witness :
  exists raw,
    decode_rows CONFIDENCE_THRESHOLD two_rows 2 5 = Ok raw /\
    raw = map corner_form
              (filter (passes CONFIDENCE_THRESHOLD) (tensor_rows two_rows 2 5)) /\
    (forall d, In d raw -> (CONFIDENCE_THRESHOLD <= confidence d)%Q) /\
    (forall i, 0 <= i < 2 ->
               (CONFIDENCE_THRESHOLD <= row_conf (tensor_row two_rows 5 i))%Q ->
               In (corner_form (tensor_row two_rows 5 i)) raw).
Proof.
  apply (@decode_rows_exact CONFIDENCE_THRESHOLD two_rows 2 5).
  - lia.
  - simpl. lia.
Defined.

(** C2, as the code has it: [plate_detection] never checks the declared
    shape against the buffer and never reports an error.  Whatever the
    stride, it returns the suppressed detections of the rows found at
    the positions [i * stride + 0 .. 4] when all of these lie inside the
    buffer, and otherwise reads outside the buffer. *)
Theorem plate_detection_unchecked
        (sort : list Detection -> list Detection) (tensor : HailoTensor) :
  plate_detection sort tensor =
  if rows_in_buffer (tensor_data tensor) (tensor_width tensor) (tensor_height tensor)
  then Ok (map to_hailo
             (apply_nms sort
                (map corner_form
                   (filter (passes CONFIDENCE_THRESHOLD)
                      (tensor_rows (tensor_data tensor) (tensor_width tensor)
                                   (tensor_height tensor))))
                NMS_THRESHOLD))
  else Undefined ReadOutOfBounds.
Proof.
  unfold plate_detection. cbv zeta. rewrite decode_rows_spec.
  now destruct (rows_in_buffer _ _ _).
Qed.

(** C2 as stated fails: with a stride of 4, and with a declared shape of
    1 x 84 on a buffer of five floats, [plate_detection] returns what it
    returns for the well-formed 1 x 5 tensor, without any error; with a
    declared shape of 2 x 5 on the same buffer it reads past the end. *)
Lemma plate_detection_bad_shapes :
  plate_detection stable_sort (mkTensor one_row 1 4)
    = plate_detection stable_sort (mkTensor one_row 1 5) /\
  plate_detection stable_sort (mkTensor one_row 1 84)
    = plate_detection stable_sort (mkTensor one_row 1 5) /\
  is_ok (plate_detection stable_sort (mkTensor one_row 1 5)) = true /\
  plate_detection stable_sort (mkTensor one_row 2 5) = Undefined ReadOutOfBounds.
Proof. repeat split; reflexivity. Qed.

End DecoderFacts.

(** ** Crop regions *)

Module CropFacts.

Import PlateDetection PlateCrop Spec Samples.
Local Open Scope Z_scope.

Lemma static_cast_int_spec (q : float) :
  static_cast_int q = if fits_int (Qtrunc q) then Ok (Qtrunc q)
                      else Undefined IntCastOverflow.
Proof. reflexivity. Qed.

(** The loop body, once the four conversions are defined: nothing when
    the clamped width or height is not positive, the clamped rectangle
    otherwise. *)
Lemma crop_region_spec (image : HailoImage) (det : HailoDetection) :
  crop_region image det =
  if castable image det then
    Ok (if (clamped_w image det <=? 0) || (clamped_h image det <=? 0) then None
        else Some {| crop_bbox := mkBBox (inject_Z (clamped_x image det))
                                         (inject_Z (clamped_y image det))
                                         (inject_Z (clamped_w image det))
                                         (inject_Z (clamped_h image det));
                     target_width := OCR_WIDTH;
                     target_height := OCR_HEIGHT;
                     detection := det |})
  else Undefined IntCastOverflow.
Proof.
  unfold crop_region, castable. rewrite !static_cast_int_spec.
  fold (scaled (bbox_x (bbox det)) (image_width image)).
  fold (scaled (bbox_y (bbox det)) (image_height image)).
  fold (scaled (bbox_width (bbox det)) (image_width image)).
  fold (scaled (bbox_height (bbox det)) (image_height image)).
  destruct (fits_int (scaled (bbox_x (bbox det)) (image_width image)));
    [| reflexivity].
  destruct (fits_int (scaled (bbox_y (bbox det)) (image_height image)));
    [| reflexivity].
  destruct (fits_int (scaled (bbox_width (bbox det)) (image_width image)));
    [| reflexivity].
  destruct (fits_int (scaled (bbox_height (bbox det)) (image_height image)));
    [| reflexivity].
  cbv [bind andb clamped_w clamped_h clamped_x clamped_y].
  now destruct (_ || _).
Qed.










End CropFacts.

(** ** Strings *)

Module StringFacts.

Local Open Scope nat_scope.

Lemma append_nil_r (s : string) : String.append s EmptyString = s.
Proof. induction s as [| c s IH]; simpl; [reflexivity | now rewrite IH]. Qed.

Lemma append_assoc (s1 s2 s3 : string) :
  String.append (String.append s1 s2) s3 = String.append s1 (String.append s2 s3).
Proof. induction s1 as [| c s1 IH]; simpl; [reflexivity | now rewrite IH]. Qed.

Lemma length_append (s1 s2 : string) :
  String.length (String.append s1 s2) = String.length s1 + String.length s2.
Proof. induction s1 as [| c s1 IH]; simpl; [reflexivity | now rewrite IH]. Qed.

Lemma string_of_list_ascii_app (l1 l2 : list ascii) :
  string_of_list_ascii (l1 ++ l2)
  = String.append (string_of_list_ascii l1) (string_of_list_ascii l2).
Proof. induction l1 as [| c l1 IH]; simpl; [reflexivity | now rewrite IH]. Qed.

Lemma length_string_of_list_ascii (l : list ascii) :
  String.length (string_of_list_ascii l) = length l.
Proof. induction l as [| c l IH]; simpl; [reflexivity | now rewrite IH]. Qed.

End StringFacts.

(** ** The pick of a timestep *)

Module ArgmaxFacts.

Import PlateOcr Spec OcrSpec NumFacts DecoderFacts.
Local Open Scope Z_scope.

Lemma read_inside (data : list float) (i : Z) :
  0 <= i < Z.of_nat (length data) -> read data i = Ok (at_index data i).
Proof.
  intros H. rewrite read_spec. unfold in_buffer.
  destruct (Z.leb_spec 0 i); [| lia].
  destruct (Z.ltb_spec i (Z.of_nat (length data))); [reflexivity | lia].
Qed.

(** The inner loop keeps the first maximum of the classes seen so far. *)
Lemma argmax_loop_spec (data : list float) (t C : Z) (n : nat) :
  forall c idx val,
    0 <= idx < c ->
    val = at_index data (t * C + idx) ->
    (forall j, 0 <= j < c -> (at_index data (t * C + j) <= val)%Q) ->
    (forall j, 0 <= j < idx -> (at_index data (t * C + j) < val)%Q) ->
    (forall j, c <= j < c + Z.of_nat n ->
               0 <= t * C + j < Z.of_nat (length data)) ->
    exists idx' val',
      argmax_loop data t C c n idx val = Ok (idx', val') /\
      0 <= idx' < c + Z.of_nat n /\
      val' = at_index data (t * C + idx') /\
      (forall j, 0 <= j < c + Z.of_nat n -> (at_index data (t * C + j) <= val')%Q) /\
      (forall j, 0 <= j < idx' -> (at_index data (t * C + j) < val')%Q).
Proof.
  induction n as [| n IH]; intros c idx val Hidx Hval Hmax Hfirst Hbuf.
  - exists idx, val. simpl. rewrite Z.add_0_r. auto.
  - simpl argmax_loop. rewrite read_inside by (apply Hbuf; lia).
    simpl bind. unfold fgt.
    assert (Hrest : forall j, c + 1 <= j < c + 1 + Z.of_nat n ->
                              0 <= t * C + j < Z.of_nat (length data))
      by (intros j Hj; apply Hbuf; lia).
    replace (c + Z.of_nat (S n)) with (c + 1 + Z.of_nat n) by lia.
    destruct (flt_cases val (at_index data (t * C + c))) as [[-> Hlt] | [-> Hle]].
    + apply IH; auto.
      * lia.
      * intros j Hj. destruct (Z.eq_dec j c) as [-> | Hne].
        -- apply Qle_refl.
        -- apply Qlt_le_weak, Qle_lt_trans with val; [apply Hmax; lia | exact Hlt].
      * intros j Hj. apply Qle_lt_trans with val; [apply Hmax; lia | exact Hlt].
    + apply IH; auto.
      * lia.
      * intros j Hj. destruct (Z.eq_dec j c) as [-> | Hne].
        -- exact Hle.
        -- apply Hmax. lia.
Qed.

(** Lines 39-48 pick the class of maximal value, the lowest one on
    ties. *)
Lemma argmax_spec (data : list float) (t C : Z) :
  1 <= C -> 0 <= t -> (t + 1) * C <= Z.of_nat (length data) ->
  exists idx val,
    argmax data t C = Ok (idx, val) /\ is_argmax data t C idx val.
Proof.
  intros HC Ht Hlen. unfold argmax.
  assert (Hin : forall j, 0 <= j < C -> 0 <= t * C + j < Z.of_nat (length data))
    by (intros j Hj; nia).
  rewrite read_inside by (specialize (Hin 0); lia).
  simpl bind.
  destruct (@argmax_loop_spec data t C (Z.to_nat (C - 1)) 1 0
                              (at_index data (t * C)))
    as (idx & val & E & Hidx & Hval & Hmax & Hfirst).
  - lia.
  - now rewrite Z.add_0_r.
  - intros j Hj. replace j with 0 by lia. rewrite Z.add_0_r. apply Qle_refl.
  - intros j Hj. lia.
  - intros j Hj. apply Hin. lia.
  - exists idx, val. split; [exact E |].
    replace (1 + Z.of_nat (Z.to_nat (C - 1))) with C in * by lia.
    unfold is_argmax. auto.
Qed.

(** The pick of a timestep is unique. *)
Lemma is_argmax_unique (data : list float) (t C i j : Z) (u v : float) :
  is_argmax data t C i u -> is_argmax data t C j v -> i = j /\ u = v.
Proof.
  intros (Hi & Hu & Mi & Fi) (Hj & Hv & Mj & Fj).
  assert (i = j).
  { destruct (Z.lt_trichotomy i j) as [L | [E | L]]; [| exact E |].
    - specialize (Fj i ltac:(lia)). specialize (Mi j ltac:(lia)).
      rewrite <- Hu in Fj. rewrite <- Hv in Mi.
      exfalso. apply (Qlt_not_le _ _ Fj Mi).
    - specialize (Fi j ltac:(lia)). specialize (Mj i ltac:(lia)).
      rewrite <- Hv in Fi. rewrite <- Hu in Mj.
      exfalso. apply (Qlt_not_le _ _ Fi Mj). }
  subst j. split; [reflexivity | congruence].
Qed.

End ArgmaxFacts.

(** ** CTC decoding *)

Module CtcFacts.

Import PlateOcr Spec OcrSpec NumFacts DecoderFacts StringFacts ArgmaxFacts.
Local Open Scope Z_scope.

Lemma ctc_loop_spec (data : list float) (C : Z) (n : nat) :
  forall t st,
    1 <= C -> 0 <= t -> (t + Z.of_nat n) * C <= Z.of_nat (length data) ->
    exists picks,
      length picks = n /\
      picks_from data C t picks /\
      ctc_loop data C t n st = Ok (run_decoder picks st).
Proof.
  induction n as [| n IH]; intros t st HC Ht Hlen.
  - exists []. repeat split. constructor.
  - destruct (@argmax_spec data t C HC Ht) as (idx & val & E & A); [nia |].
    destruct (IH (t + 1) (ctc_update st idx val) HC) as (picks & L & P & R);
      [lia | nia |].
    exists ((idx, val) :: picks). split; [simpl; now rewrite L |].
    split.
    + unfold picks_from. simpl length. rewrite indices_from_S.
      constructor; [exact A | exact P].
    + simpl ctc_loop. rewrite E. simpl bind. exact R.
Qed.

Lemma picks_from_range (data : list float) (C : Z) (picks : list (Z * float)) :
  forall t, picks_from data C t picks ->
            Forall (fun p => 0 <= fst p < C) picks.
Proof.
  unfold picks_from.
  induction picks as [| p picks IH]; intros t H; [constructor |].
  simpl length in H. rewrite indices_from_S in H.
  inversion H as [| ? ? ? ? A F]; subst.
  constructor; [apply A | now apply (IH (t + 1))].
Qed.

(** The update of lines 50-60 emits the pick exactly when its class is a
    character and differs from the previous class. *)
Lemma ctc_update_emits (st : decoder) (i : Z) (v : float) :
  ctc_update st i v =
  if is_char i && differs (Some (prev_char st)) i then
    {| result := mkOCRResult (push_char (text (result st)) (charset_at i))
                             (confidence (result st))
                             (char_confidences (result st) ++ [v]);
       prev_char := i;
       total_conf := (total_conf st + v)%Q;
       char_count := char_count st + 1 |}
  else
    {| result := result st;
       prev_char := i;
       total_conf := total_conf st;
       char_count := char_count st |}.
Proof.
  unfold ctc_update, is_char, differs, BLANK_INDEX.
  destruct (Z.ltb_spec i CHARSET_length) as [Hlt | Hge];
    destruct (Z.eqb_spec i CHARSET_length) as [He | Hne];
    destruct (Z.eqb_spec i (prev_char st)); simpl; try reflexivity; lia.
Qed.

Lemma run_decoder_spec (picks : list (Z * float)) :
  forall st,
    let st' := run_decoder picks st in
    let em := collapse is_char (Some (prev_char st)) picks in
    text (result st') = String.append (text (result st)) (chars em) /\
    char_confidences (result st') = char_confidences (result st) ++ map snd em /\
    (total_conf st' == total_conf st + Qsum (map snd em))%Q /\
    char_count st' = char_count st + Z.of_nat (length em).
Proof.
  induction picks as [| [i v] picks IH]; intros st; cbv zeta.
  - simpl. rewrite append_nil_r, app_nil_r, Z.add_0_r.
    repeat split. unfold Qsum. simpl. symmetry. apply Qplus_0_r.
  - change (run_decoder ((i, v) :: picks) st)
      with (run_decoder picks (ctc_update st i v)).
    change (collapse is_char (Some (prev_char st)) ((i, v) :: picks))
      with ((if is_char i && differs (Some (prev_char st)) i
             then [(i, v)] else [])
              ++ collapse is_char (Some i) picks).
    rewrite ctc_update_emits.
    destruct (is_char i && differs (Some (prev_char st)) i).
    + match goal with
      | |- context [run_decoder picks ?s] =>
          destruct (IH s) as (Ht & Hc & Hs & Hn)
      end.
      simpl in Ht, Hc, Hs, Hn. rewrite Ht, Hc, Hn, Hs.
      unfold push_char, chars. simpl.
      rewrite append_assoc, <- app_assoc.
      repeat split; [symmetry; apply Qplus_assoc | lia].
    + match goal with
      | |- context [run_decoder picks ?s] =>
          destruct (IH s) as (Ht & Hc & Hs & Hn)
      end.
      simpl in Ht, Hc, Hs, Hn. rewrite Ht, Hc, Hn, Hs.
      repeat split; reflexivity.
Qed.

Lemma collapse_blank_start (picks : list (Z * float)) :
  collapse is_char (Some BLANK_INDEX) picks = collapse is_char None picks.
Proof.
  destruct picks as [| [i v] picks]; [reflexivity |]. simpl.
  unfold is_char, BLANK_INDEX.
  destruct (Z.ltb_spec i CHARSET_length);
    destruct (Z.eqb_spec i CHARSET_length); simpl; try reflexivity; lia.
Qed.

Lemma collapse_ext (f g : Z -> bool) (picks : list (Z * float)) :
  Forall (fun p => f (fst p) = g (fst p)) picks ->
  forall prev, collapse f prev picks = collapse g prev picks.
Proof.
  induction 1 as [| p picks E F IH]; intros prev; simpl; [reflexivity |].
  now rewrite E, IH.
Qed.

Lemma collapse_same (f : Z -> bool) (k : Z) (picks : list (Z * float)) :
  Forall (fun p => fst p = k) picks ->
  collapse f (Some k) picks = [].
Proof.
  induction 1 as [| p picks E F IH]; simpl; [reflexivity |].
  rewrite E, Z.eqb_refl, andb_false_r. simpl. exact IH.
Qed.


Lemma length_chars (ps : list (Z * float)) :
  String.length (chars ps) = length ps.
Proof. unfold chars. now rewrite length_string_of_list_ascii, length_map. Qed.

(** [ctc_greedy_decode] on a buffer that holds its [T] x [C] values:
    text, per-character confidences and aggregate confidence in terms of
    the picks of the timesteps. *)
Lemma ctc_greedy_decode_spec (data : list float) (T C : Z) :
  fits data T C ->
  exists r picks,
    ctc_greedy_decode data T C = Ok r /\
    picks_of data T C picks /\
    text r = chars (collapse is_char None picks) /\
    char_confidences r = map snd (collapse is_char None picks) /\
    (confidence r == mean (char_confidences r))%Q.
Proof.
  intros [HC Hlen]. unfold ctc_greedy_decode.
  destruct (@ctc_loop_spec data C (Z.to_nat T) 0 decoder_init HC)
    as (picks & L & P & R); [lia | nia |].
  rewrite R. simpl bind.
  destruct (run_decoder_spec picks decoder_init) as (Ht & Hc & Hs & Hn).
  simpl prev_char in *. rewrite collapse_blank_start in *.
  simpl in Ht, Hc, Hs, Hn.
  eexists. exists picks. split; [reflexivity |].
  split; [split; assumption |]. simpl.
  split; [exact Ht |]. split; [exact Hc |].
  rewrite Hn, Hc. unfold mean.
  destruct (collapse is_char None picks) as [| p em] eqn:E.
  - reflexivity.
  - rewrite length_map.
    destruct (Z.ltb_spec 0 (Z.of_nat (length (p :: em)))) as [_ | Hz];
      [| simpl in Hz; lia].
    change (map snd (p :: em)) with (snd p :: map snd em) at 2.
    cbv iota. rewrite Hs. now rewrite Qplus_0_l.
Qed.



(** The text decoded from a buffer, in terms of the picks of its
    timesteps. *)
Lemma ctc_greedy_decode_picks (data : list float) (T C : Z) :
  fits data T C ->
  exists r picks,
    ctc_greedy_decode data T C = Ok r /\
    picks_of data T C picks /\
    text r = chars (collapse is_char None picks) /\
    (C = BLANK_INDEX + 1 ->
     text r = chars (collapse (not_blank (C - 1)) None picks)).
Proof.
  intros F.
  destruct (ctc_greedy_decode_spec F) as (r & picks & E & P & Ht & _).
  exists r, picks. repeat (split; [assumption |]).
  intros ->. rewrite Ht. f_equal. apply collapse_ext.
  destruct P as [_ P]. apply picks_from_range in P.
  eapply Forall_impl; [| exact P].
  intros p Hp. unfold is_char, not_blank, BLANK_INDEX in *.
  destruct (Z.ltb_spec (fst p) CHARSET_length);
    destruct (Z.eqb_spec (fst p) (CHARSET_length + 1 - 1)); simpl;
    try reflexivity; lia.
Qed.

(** C1, as the code has it: on a buffer that holds its [T] x [C]
    values, [ctc_greedy_decode] picks at each timestep the class of
    maximal value, the lowest on ties, and emits [CHARSET[idx]] exactly
    when the picked index is below the fixed blank index 36, the length
    of [CHARSET], and differs from the index picked at the previous
    timestep.  With [C = 37] classes this is: differs from the blank
    index [C - 1] and from the previous index.  Six timesteps of 37
    classes with picks 10, 10, 36, 11, 11, 36 decode to "AB"; six
    timesteps of 3 classes with picks 0, 0, 2, 1, 1, 2 decode to
    "0212". *)
Theorem ctc_greedy_decode_text :
  (forall (data : list float) (T C : Z),
      fits data T C ->
      exists r picks,
        ctc_greedy_decode data T C = Ok r /\
        picks_of data T C picks /\
        text r = chars (collapse is_char None picks) /\
        (C = BLANK_INDEX + 1 ->
         text r = chars (collapse (not_blank (C - 1)) None picks))) /\
  (exists r, ctc_greedy_decode Samples.all_classes 6 37 = Ok r /\
             text r = "AB"%string) /\
  (exists r, ctc_greedy_decode Samples.three_classes 6 3 = Ok r /\
             text r = "0212"%string).
Proof.
  split; [exact ctc_greedy_decode_picks |].
  split; eexists; split; reflexivity.
Qed.

Lemma ctc_greedy_decode_text_witness :
  exists r picks,
    ctc_greedy_decode Samples.all_classes 6 37 = Ok r /\
    picks_of Samples.all_classes 6 37 picks /\
    text r = chars (collapse (not_blank 36) None picks) /\
    text r = "AB"%string.
Proof.
  destruct (proj1 ctc_greedy_decode_text Samples.all_classes 6 37)
    as (r & picks & E & P & _ & H37).
  - split; [lia | vm_compute; discriminate].
  - exists r, picks. repeat (split; [assumption |]).
    split; [now apply H37 |].
    vm_compute in E. injection E as <-. reflexivity.
Defined.

(** C1 as stated fails for [C = 3]: on six timesteps whose picks are
    0, 0, 2, 1, 1, 2 the decoded text is "0212".  The blank index is 36
    whatever [C] is, so class 2 = [C - 1] is emitted as a character, and
    classes 0 and 1 are the characters '0' and '1' of [CHARSET], not 'A'
    and 'B'. *)
Lemma ctc_three_classes :
  map (fun t => argmax Samples.three_classes t 3) [0; 1; 2; 3; 4; 5]
    = [Ok (0, 1%Q); Ok (0, 1%Q); Ok (2, 1%Q);
       Ok (1, 1%Q); Ok (1, 1%Q); Ok (2, 1%Q)] /\
  exists r,
    ctc_greedy_decode Samples.three_classes 6 3 = Ok r /\
    text r = "0212"%string /\
    text r <> "AB"%string /\
    text r <> chars (collapse (not_blank (3 - 1)) None
                       [(0, 1%Q); (0, 1%Q); (2, 1%Q);
                        (1, 1%Q); (1, 1%Q); (2, 1%Q)]).
Proof.
  split; [reflexivity |].
  eexists. split; [reflexivity |].
  split; [reflexivity |].
  split; vm_compute; discriminate.
Qed.



End CtcFacts.

(** ** Plate-text validation *)

Module ValidateFacts.

Import PlateOcr OcrSpec StringFacts.
Local Open Scope nat_scope.

Lemma contains_spec (s : string) (c : ascii) :
  contains s c = true <-> In c (list_ascii_of_string s).
Proof.
  induction s as [| d s IH]; simpl.
  - split; [discriminate | contradiction].
  - destruct (Ascii.eqb_spec d c) as [-> | Hne].
    + split; auto.
    + rewrite IH. split; [auto | intros [E | H]; [contradiction | exact H]].
Qed.

(** The cleaning loop appends to [cleaned] the valid characters of the
    text, in order. *)
Lemma clean_loop_spec (text : string) :
  forall cleaned, clean_loop text cleaned = String.append cleaned (strip text).
Proof.
  induction text as [| c text IH]; intros cleaned; cbn [clean_loop strip].
  - now rewrite append_nil_r.
  - rewrite IH. destruct (contains CHARSET c); [| reflexivity].
    unfold push_char. now rewrite append_assoc.
Qed.

Lemma strip_all_valid (s : string) : all_valid s -> strip s = s.
Proof.
  unfold all_valid. induction s as [| c s IH]; intros H; [reflexivity |].
  simpl in H. inversion H as [| ? ? Hc Hs]; subst.
  apply contains_spec in Hc. cbn [strip].
  rewrite Hc. f_equal. now apply IH.
Qed.

Lemma validate_plate_text_spec (text : string) :
  validate_plate_text text =
  if (4 <=? String.length (strip text)) && (String.length (strip text) <=? 8)
  then strip text else ""%string.
Proof.
  unfold validate_plate_text. rewrite clean_loop_spec. simpl String.append.
  destruct (Z.ltb_spec (Z.of_nat (String.length (strip text))) 4);
    destruct (Z.ltb_spec 8 (Z.of_nat (String.length (strip text))));
    destruct (Nat.leb_spec 4 (String.length (strip text)));
    destruct (Nat.leb_spec (String.length (strip text)) 8);
    simpl; try reflexivity; lia.
Qed.

(** C8: [validate_plate_text] strips the characters outside the valid
    set and returns the cleaned text when its length lies in [4, 8], the
    empty text otherwise; a text of valid characters of length 4 to 8 is
    returned as it is, one of length 3 or 9 is rejected. *)
Theorem validate_plate_text_range (text : string) :
  validate_plate_text text =
    (if (4 <=? String.length (strip text)) && (String.length (strip text) <=? 8)
     then strip text else ""%string) /\
  (all_valid text -> 4 <= String.length text <= 8 ->
   validate_plate_text text = text) /\
  (all_valid text -> String.length text = 3 \/ String.length text = 9 ->
   validate_plate_text text = ""%string).
Proof.
  split; [apply validate_plate_text_spec |].
  split; intros V L; rewrite validate_plate_text_spec, (strip_all_valid V).
  - destruct (Nat.leb_spec 4 (String.length text));
      destruct (Nat.leb_spec (String.length text) 8); simpl;
      try reflexivity; lia.
  - destruct (Nat.leb_spec 4 (String.length text));
      destruct (Nat.leb_spec (String.length text) 8); simpl;
      try reflexivity; lia.
Qed.

Ltac valid_by_computation :=
  unfold all_valid; cbn [list_ascii_of_string];
  repeat (constructor; [apply contains_spec; vm_compute; reflexivity |]);
  constructor.

Lemma validate_plate_text_range_witness :
  validate_plate_text "AB12" = "AB12"%string /\
  validate_plate_text "ABC12345" = "ABC12345"%string /\
  validate_plate_text "AB1" = ""%string /\
  validate_plate_text "ABCD12345" = ""%string.
Proof.
  destruct (validate_plate_text_range "AB12") as (_ & Hfour & _).
  destruct (validate_plate_text_range "ABC12345") as (_ & Height & _).
  destruct (validate_plate_text_range "AB1") as (_ & _ & Hthree).
  destruct (validate_plate_text_range "ABCD12345") as (_ & _ & Hnine).
  split; [apply Hfour; [valid_by_computation | vm_compute; lia] |].
  split; [apply Height; [valid_by_computation | vm_compute; lia] |].
  split; [apply Hthree; [valid_by_computation | left; reflexivity] |].
  apply Hnine; [valid_by_computation | right; reflexivity].
Defined.

End ValidateFacts.

(** ** The recognition filter *)

Module OcrFacts.

Import PlateOcr Spec OcrSpec NumFacts StringFacts CtcFacts ValidateFacts.
Local Open Scope Z_scope.

Lemma get_In (s : string) :
  forall n c, String.get n s = Some c -> In c (list_ascii_of_string s).
Proof.
  induction s as [| d s IH]; intros n c H; [discriminate |].
  destruct n as [| n]; simpl in H |- *.
  - injection H as ->. now left.
  - right. eapply IH; eauto.
Qed.

Lemma get_inside (s : string) :
  forall n, (n < String.length s)%nat -> exists c, String.get n s = Some c.
Proof.
  induction s as [| d s IH]; intros n H; simpl in H; [lia |].
  destruct n as [| n]; simpl; [eauto |]. apply IH. lia.
Qed.

Lemma charset_at_valid (i : Z) :
  0 <= i < CHARSET_length -> valid_char (charset_at i).
Proof.
  intros H. unfold valid_char, charset_at, CHARSET_length in *.
  destruct (@get_inside CHARSET (Z.to_nat i)) as [c E]; [lia |].
  rewrite E. eapply get_In; eauto.
Qed.

Lemma collapse_emits (f : Z -> bool) (picks : list (Z * float)) :
  forall prev p, In p (collapse f prev picks) -> In p picks /\ f (fst p) = true.
Proof.
  induction picks as [| q picks IH]; intros prev p H; [contradiction |].
  simpl in H. apply in_app_or in H. destruct H as [H | H].
  - destruct (f (fst q)) eqn:E; simpl in H; [| contradiction].
    destruct (differs prev (fst q)); [| contradiction].
    destruct H as [<- | []]. split; [now left | exact E].
  - destruct (IH _ _ H). split; [now right | assumption].
Qed.

(** A decoded text only holds characters of [CHARSET]. *)
Lemma decoded_text_valid (data : list float) (T C : Z) (picks : list (Z * float)) :
  picks_of data T C picks ->
  all_valid (chars (collapse is_char None picks)).
Proof.
  intros [_ P]. apply picks_from_range in P. rewrite Forall_forall in P.
  unfold all_valid, chars. rewrite list_ascii_of_string_of_list_ascii.
  apply Forall_forall. intros c Hc. apply in_map_iff in Hc.
  destruct Hc as (p & <- & Hp). apply collapse_emits in Hp.
  destruct Hp as [Hin Hchar]. apply charset_at_valid.
  unfold is_char in Hchar. apply Z.ltb_lt in Hchar.
  specialize (P p Hin). lia.
Qed.

(** C10: on a tensor that holds its timesteps x classes values,
    [plate_ocr] returns one classification, labelled with the validated
    text and carrying the confidence of the decoder, when the validated
    text is not empty and that confidence is at least 0.6, and nothing
    otherwise.  The confidence is the mean over all characters of the
    raw text; validation strips nothing from a decoded text, so the
    validated text is the raw text when its length lies in [4, 8] and is
    empty otherwise. *)
Theorem plate_ocr_gate (tensor : HailoTensor) :
  fits (tensor_data tensor) (tensor_height tensor) (tensor_width tensor) ->
  exists r,
    ctc_greedy_decode (tensor_data tensor) (tensor_height tensor)
                      (tensor_width tensor) = Ok r /\
    (confidence r == mean (char_confidences r))%Q /\
    length (char_confidences r) = String.length (text r) /\
    validate_plate_text (text r)
      = (if ((4 <=? String.length (text r)) && (String.length (text r) <=? 8))%nat
         then text r else ""%string) /\
    (validate_plate_text (text r) <> ""%string ->
     (MIN_CONFIDENCE <= confidence r)%Q ->
     plate_ocr tensor
     = Ok [ {| label := validate_plate_text (text r);
               cls_confidence := confidence r;
               metadata := [("char_confidences"%string,
                             MetaFloats (char_confidences r));
                            ("raw_text"%string, MetaText (text r))] |} ]) /\
    (validate_plate_text (text r) = ""%string \/
     (confidence r < MIN_CONFIDENCE)%Q ->
     plate_ocr tensor = Ok []).
Proof.
  intros F.
  destruct (ctc_greedy_decode_spec F) as (r & picks & E & P & Ht & Hc & Hm).
  exists r. split; [exact E |]. split; [exact Hm |].
  split; [now rewrite Hc, Ht, length_chars, length_map |].
  split.
  { rewrite validate_plate_text_spec, strip_all_valid; [reflexivity |].
    rewrite Ht. eapply decoded_text_valid; eauto. }
  unfold plate_ocr. cbv zeta. unfold USE_BEAM_SEARCH. rewrite E. simpl bind.
  split.
  - intros Hv Hconf.
    apply String.eqb_neq in Hv. rewrite Hv.
    apply fge_true in Hconf. rewrite Hconf. reflexivity.
  - intros [Hv | Hconf].
    + rewrite Hv. reflexivity.
    + apply fge_false in Hconf. rewrite Hconf. now rewrite andb_false_r.
Qed.

Lemma plate_ocr_gate_witness :
  (exists c, plate_ocr Samples.plate_tensor = Ok [c] /\
             label c = "AB12"%string /\ (cls_confidence c == 1)%Q) /\
  plate_ocr Samples.faint_tensor = Ok [].
Proof.
  split.
  - destruct (@plate_ocr_gate Samples.plate_tensor)
      as (r & E & _ & _ & _ & Hyes & _).
    + split; [simpl; lia | vm_compute; discriminate].
    + vm_compute in E. injection E as <-.
      eexists. split; [apply Hyes; vm_compute; discriminate |].
      split; vm_compute; reflexivity.
  - destruct (@plate_ocr_gate Samples.faint_tensor)
      as (r & E & _ & _ & _ & _ & Hno).
    + split; [simpl; lia | vm_compute; discriminate].
    + apply Hno. right. vm_compute in E. injection E as <-.
      vm_compute. reflexivity.
Defined.

End OcrFacts.

(** ** More on greedy suppression *)

Module NmsMore.

Import PlateDetection Spec Samples NumFacts IouFacts SortFacts NmsFacts.
Local Open Scope Q_scope.

(** The flag the inner loop leaves on a detection whose flag was clear is
    the outcome of the test of line 44. *)
Lemma suppress_nth (thr : float) (d : Detection) (ds : list Detection) :
  forall sup i e,
    nth_error ds i = Some e ->
    nth_error sup i = Some false ->
    nth_error (suppress thr d ds sup) i = Some (xgt (compute_iou d e) thr).
Proof.
  induction ds as [| e' ds IH]; intros sup i e He Hs.
  - destruct i; discriminate.
  - destruct sup as [| s sup]; [destruct i; discriminate |].
    destruct i as [| i]; simpl in *.
    + injection He as <-. injection Hs as ->. reflexivity.
    + now apply IH.
Qed.

(** A detection whose flag is clear on entry is kept, or a kept detection
    placed before it overlaps it above the threshold. *)
Lemma nms_loop_covers (thr : float) (ds : list Detection) :
  forall sup i e,
    descending ds ->
    nth_error ds i = Some e ->
    nth_error sup i = Some false ->
    In e (nms_loop thr ds sup) \/
    exists k, In k (nms_loop thr ds sup) /\
              xgt (compute_iou k e) thr = true /\
              confidence e <= confidence k.
Proof.
  induction ds as [| d ds IH]; intros sup i e D He Hs.
  - destruct i; discriminate.
  - destruct sup as [| s sup]; [destruct i; discriminate |].
    pose proof (descending_In D) as Hd.
    apply StronglySorted_inv in D. destruct D as [D _].
    destruct i as [| i]; simpl in He, Hs.
    + injection He as <-. injection Hs as ->. left. simpl. now left.
    + simpl. destruct s.
      * exact (IH sup i e D He Hs).
      * pose proof (suppress_nth thr d ds sup i He Hs) as Hn.
        destruct (xgt (compute_iou d e) thr) eqn:G.
        -- right. exists d. split; [now left |]. split; [exact G |].
           apply Hd. eapply nth_error_In; eauto.
        -- destruct (IH _ i e D He Hn) as [H | (k & Hk & Gk & Ck)].
           ++ left. now right.
           ++ right. exists k. split; [now right | auto].
Qed.

(** The kept detections and the dropped ones make up the input. *)
Lemma nms_loop_selects (thr : float) (ds : list Detection) :
  forall sup, exists dropped,
      Permutation (nms_loop thr ds sup ++ dropped) ds.
Proof.
  induction ds as [| d ds IH]; intros sup.
  - exists []. reflexivity.
  - destruct sup as [| s sup]; [exists (d :: ds); reflexivity |].
    simpl. destruct s.
    + destruct (IH sup) as [dropped P]. exists (d :: dropped).
      rewrite <- P at 2. apply Permutation_sym, Permutation_middle.
    + destruct (IH (suppress thr d ds sup)) as [dropped P].
      exists dropped. simpl. now constructor.
Qed.

(** X3: the detections [apply_nms] returns are detections of its input,
    each taken once: together with the dropped ones they make up the
    input, so there are at most as many. *)
Theorem apply_nms_selects
        (sort : list Detection -> list Detection)
        (l : list Detection) (thr : float) :
  sort_contract sort ->
  (exists dropped, Permutation (apply_nms sort l thr ++ dropped) l) /\
  (length (apply_nms sort l thr) <= length l)%nat.
Proof.
  intros C.
  destruct (nms_loop_selects thr (sort l) (repeat false (length (sort l))))
    as [dropped P].
  assert (P' : Permutation (apply_nms sort l thr ++ dropped) l).
  { unfold apply_nms. rewrite P. apply Permutation_sym, (sort_permutes C). }
  split; [now exists dropped |].
  apply Permutation_length in P'. rewrite length_app in P'. lia.
Qed.

Lemma apply_nms_selects_witness :
  (exists dropped,
      Permutation
        (apply_nms stable_sort [far_box; left_box; right_box] NMS_THRESHOLD
           ++ dropped)
        [far_box; left_box; right_box]) /\
  (length (apply_nms stable_sort [far_box; left_box; right_box] NMS_THRESHOLD)
   <= 3)%nat.
Proof.
  apply (@apply_nms_selects stable_sort [far_box; left_box; right_box]
           NMS_THRESHOLD stable_sort_contract).
Defined.

(** X4: every detection of the input either survives [apply_nms] or is
    overlapped above the threshold by a survivor of at least its
    confidence. *)
Theorem apply_nms_covers
        (sort : list Detection -> list Detection)
        (l : list Detection) (thr : float) (e : Detection) :
  sort_contract sort -> In e l ->
  In e (apply_nms sort l thr) \/
  exists k, In k (apply_nms sort l thr) /\
            xgt (compute_iou k e) thr = true /\
            confidence e <= confidence k.
Proof.
  intros C He.
  apply (Permutation_in _ (sort_permutes C l)) in He.
  apply In_nth_error in He. destruct He as [i He].
  unfold apply_nms. eapply nms_loop_covers; eauto.
  - now apply contract_descending.
  - assert (Hi : (i < length (sort l))%nat)
      by (apply nth_error_Some; congruence).
    rewrite nth_error_repeat; [reflexivity | exact Hi].
Qed.

Lemma apply_nms_covers_witness :
  In right_box (apply_nms stable_sort [far_box; left_box; right_box] NMS_THRESHOLD)
  \/ exists k,
      In k (apply_nms stable_sort [far_box; left_box; right_box] NMS_THRESHOLD) /\
      xgt (compute_iou k right_box) NMS_THRESHOLD = true /\
      confidence right_box <= confidence k.
Proof.
  apply (@apply_nms_covers stable_sort [far_box; left_box; right_box]
           NMS_THRESHOLD right_box stable_sort_contract).
  simpl. auto.
Defined.

(** X5: of a non-empty input, [apply_nms] returns a non-empty list, in
    confidence-descending order, whose first detection has the highest
    confidence of the whole input; of the empty input it returns
    nothing. *)
Theorem apply_nms_top
        (sort : list Detection -> list Detection)
        (l : list Detection) (thr : float) :
  sort_contract sort ->
  descending (apply_nms sort l thr) /\
  (l = [] -> apply_nms sort l thr = []) /\
  (l <> [] ->
   exists top rest,
     apply_nms sort l thr = top :: rest /\
     forall e, In e l -> confidence e <= confidence top).
Proof.
  intros C. split; [now apply apply_nms_descending |].
  pose proof (sort_permutes C l) as P.
  pose proof (contract_descending C l) as D.
  unfold apply_nms. split.
  - intros ->. apply Permutation_nil in P. now rewrite P.
  - intros Hl. destruct (sort l) as [| d ds] eqn:E.
    + apply Permutation_sym, Permutation_nil in P. contradiction.
    + simpl. eexists. eexists. split; [reflexivity |].
      intros e He. apply (Permutation_in _ P) in He.
      destruct He as [<- | He]; [apply Qle_refl | now apply (descending_In D)].
Qed.

Lemma apply_nms_top_witness :
  exists top rest,
    apply_nms stable_sort [far_box; left_box; right_box] NMS_THRESHOLD
      = top :: rest /\
    forall e, In e [far_box; left_box; right_box] ->
              confidence e <= confidence top.
Proof.
  apply (@apply_nms_top stable_sort [far_box; left_box; right_box]
           NMS_THRESHOLD stable_sort_contract).
  discriminate.
Defined.

End NmsMore.

(** ** The detections returned by the filter *)

Module DetectionMore.

Import PlateDetection Spec Samples NumFacts SortFacts NmsFacts DecoderFacts.
Local Open Scope Z_scope.

Lemma descending_map_to_hailo (l : list Detection) :
  descending l ->
  StronglySorted (fun a b => (hconfidence b <= hconfidence a)%Q) (map to_hailo l).
Proof.
  unfold descending. induction 1 as [| a l S IH F]; simpl; constructor; auto.
  apply Forall_map. eapply Forall_impl; [| exact F]. auto.
Qed.

Lemma nms_loop_length (thr : float) (ds : list Detection) (sup : list bool) :
  (length (nms_loop thr ds sup) <= length ds)%nat.
Proof.
  destruct (NmsMore.nms_loop_selects thr ds sup) as [dropped P].
  apply Permutation_length in P. rewrite length_app in P. lia.
Qed.

(** X7: what [plate_detection] returns, when it returns: at most one
    detection per row of the tensor, in confidence-descending order, each
    labelled "license_plate" with class 0 and a confidence of at least
    0.5, and each the corner form of a row of the tensor. *)
Theorem plate_detection_output
        (sort : list Detection -> list Detection) (tensor : HailoTensor)
        (dets : list HailoDetection) :
  sort_contract sort ->
  plate_detection sort tensor = Ok dets ->
  (length dets <= Z.to_nat (tensor_width tensor))%nat /\
  StronglySorted (fun a b => (hconfidence b <= hconfidence a)%Q) dets /\
  forall h, In h dets ->
    label h = "license_plate"%string /\
    hclass_id h = 0 /\
    (CONFIDENCE_THRESHOLD <= hconfidence h)%Q /\
    exists i, 0 <= i < tensor_width tensor /\
              h = to_hailo (corner_form
                              (tensor_row (tensor_data tensor)
                                          (tensor_height tensor) i)).
Proof.
  intros C E. unfold plate_detection in E. cbv zeta in E.
  rewrite decode_rows_spec in E.
  destruct (rows_in_buffer _ _ _); [| discriminate].
  simpl in E. injection E as <-.
  set (raw := map corner_form
                  (filter (passes CONFIDENCE_THRESHOLD)
                          (tensor_rows (tensor_data tensor) (tensor_width tensor)
                                       (tensor_height tensor)))).
  split; [| split].
  - rewrite length_map. unfold apply_nms.
    etransitivity; [apply nms_loop_length |].
    rewrite <- (Permutation_length (sort_permutes C raw)).
    unfold raw. rewrite length_map.
    etransitivity; [apply filter_length_le |].
    unfold tensor_rows, row_indices, indices_from.
    now rewrite !length_map, length_seq.
  - apply descending_map_to_hailo. now apply apply_nms_descending.
  - intros h Hh. apply in_map_iff in Hh. destruct Hh as (d & <- & Hd).
    apply (apply_nms_In _ _ _ C) in Hd.
    unfold raw in Hd. apply in_map_iff in Hd. destruct Hd as (r & <- & Hr).
    apply filter_In in Hr. destruct Hr as [Hr Hp].
    unfold tensor_rows in Hr. apply in_map_iff in Hr.
    destruct Hr as (i & <- & Hi). apply In_row_indices in Hi.
    repeat split; try reflexivity.
    + simpl. now apply fge_true in Hp.
    + exists i. split; [exact Hi | reflexivity].
Qed.

Lemma plate_detection_output_witness :
  exists dets,
    plate_detection stable_sort (mkTensor two_rows 2 5) = Ok dets /\
    (length dets <= 2)%nat /\
    forall h, In h dets -> (CONFIDENCE_THRESHOLD <= hconfidence h)%Q.
Proof.
  eexists. split; [reflexivity |].
  destruct (@plate_detection_output stable_sort (mkTensor two_rows 2 5) _
              stable_sort_contract eq_refl) as (L & _ & H).
  split; [exact L |]. intros h Hh. now apply H.
Defined.

End DetectionMore.

(** ** More on crop regions *)

Module CropMore.

Import PlateDetection PlateCrop Spec Shapes Samples CropFacts.
Local Open Scope Z_scope.

Lemma crop_loop_eq (image : HailoImage) (detections : list HailoDetection) :
  forall acc,
    forallb (castable image) detections = true ->
    exists crops,
      crop_loop image detections acc = Ok (acc ++ crops) /\
      map detection crops = filter (keeps image) detections /\
      Forall (fun c => target_width c = OCR_WIDTH /\ target_height c = OCR_HEIGHT)
             crops.
Proof.
  induction detections as [| det rest IH]; intros acc H; simpl in H.
  - exists []. simpl. rewrite app_nil_r. repeat split. constructor.
  - apply andb_true_iff in H. destruct H as [Hd Hr].
    simpl crop_loop. rewrite crop_region_spec, Hd. simpl bind.
    simpl filter. unfold keeps at 1.
    destruct ((clamped_w image det <=? 0) || (clamped_h image det <=? 0)); simpl negb.
    + destruct (IH acc Hr) as (crops & E & M & F). exists crops. auto.
    + match goal with
      | |- context [acc ++ [?c]] =>
          destruct (IH (acc ++ [c]) Hr) as (crops & E & M & F);
          exists (c :: crops)
      end.
      rewrite E, <- app_assoc. simpl. rewrite M. repeat split.
      constructor; [split; reflexivity | exact F].
Qed.

(** X8: when the scaled coordinates of all detections are [int] values,
    [crop_plates] returns one crop for each detection whose clamped width
    and height are positive and none for the others, in the order of the
    detections, each crop referring back to its detection and carrying
    the target size 200 x 64. *)
Theorem crop_plates_keeps
        (image : HailoImage) (detections : list HailoDetection) :
  forallb (castable image) detections = true ->
  exists crops,
    crop_plates image detections = Ok crops /\
    map detection crops = filter (keeps image) detections /\
    Forall (fun c => target_width c = 200 /\ target_height c = 64) crops /\
    (length crops <= length detections)%nat.
Proof.
  intros H. destruct (crop_loop_eq image detections [] H) as (crops & E & M & F).
  exists crops. repeat split; auto.
  rewrite <- (length_map detection), M. apply filter_length_le.
Qed.

Lemma crop_plates_keeps_witness :
  exists crops,
    crop_plates frame [centred; sliver; overhanging] = Ok crops /\
    map detection crops = [centred; overhanging].
Proof.
  destruct (@crop_plates_keeps frame [centred; sliver; overhanging] eq_refl)
    as (crops & E & M & _).
  exists crops. split; [exact E | exact M].
Defined.

(** X9: a box that lies inside the frame and is at least one pixel wide
    and high after scaling is cropped as it is: the clamping changes
    nothing. *)
Theorem crop_region_inside (image : HailoImage) (det : HailoDetection) :
  let sx := scaled (bbox_x (bbox det)) (image_width image) in
  let sy := scaled (bbox_y (bbox det)) (image_height image) in
  let sw := scaled (bbox_width (bbox det)) (image_width image) in
  let sh := scaled (bbox_height (bbox det)) (image_height image) in
  image_width image <= INT_MAX -> image_height image <= INT_MAX ->
  0 <= sx -> 0 <= sy -> 1 <= sw -> 1 <= sh ->
  sx + sw <= image_width image -> sy + sh <= image_height image ->
  crop_region image det
  = Ok (Some {| crop_bbox := mkBBox (inject_Z sx) (inject_Z sy)
                                    (inject_Z sw) (inject_Z sh);
                target_width := OCR_WIDTH;
                target_height := OCR_HEIGHT;
                detection := det |}).
Proof.
  intros sx sy sw sh HW HH Hx Hy Hw Hh Hxw Hyh.
  rewrite crop_region_spec.
  assert (Hc : castable image det = true).
  { unfold castable, fits_int, INT_MIN, INT_MAX in *.
    fold sx sy sw sh.
    repeat (apply andb_true_iff; split); apply Z.leb_le; lia. }
  rewrite Hc.
  assert (Ex : clamped_x image det = sx) by (unfold clamped_x; fold sx; lia).
  assert (Ey : clamped_y image det = sy) by (unfold clamped_y; fold sy; lia).
  assert (Ew : clamped_w image det = sw)
    by (unfold clamped_w; rewrite Ex; fold sw; lia).
  assert (Eh : clamped_h image det = sh)
    by (unfold clamped_h; rewrite Ey; fold sh; lia).
  rewrite Ex, Ey, Ew, Eh.
  destruct (Z.leb_spec sw 0); [lia |].
  destruct (Z.leb_spec sh 0); [lia |].
  reflexivity.
Qed.

Lemma crop_region_inside_witness :
  crop_region frame centred
  = Ok (Some {| crop_bbox := mkBBox (inject_Z 320) (inject_Z 180)
                                    (inject_Z 160) (inject_Z 40);
                target_width := 200; target_height := 64;
                detection := centred |}).
Proof.
  apply (@crop_region_inside frame centred); vm_compute; discriminate.
Defined.

(** X10: clamping moves the origin of a box that overhangs the frame but
    does not take the overhang off its size.  A box whose scaled x is
    negative is cropped from column 0 with its full scaled width, up to
    the frame width; a box whose scaled x is at or beyond the last column
    is cropped as one column at the right border, also when it lies
    entirely outside the frame. *)
Theorem crop_region_overhang (image : HailoImage) (det : HailoDetection) :
  let sx := scaled (bbox_x (bbox det)) (image_width image) in
  let sw := scaled (bbox_width (bbox det)) (image_width image) in
  1 <= image_width image -> 1 <= image_height image ->
  castable image det = true ->
  1 <= sw -> 0 < clamped_h image det ->
  exists c,
    crop_region image det = Ok (Some c) /\
    (sx < 0 ->
     bbox_x (crop_bbox c) = inject_Z 0 /\
     bbox_width (crop_bbox c) = inject_Z (Z.min sw (image_width image))) /\
    (image_width image - 1 <= sx ->
     bbox_x (crop_bbox c) = inject_Z (image_width image - 1) /\
     bbox_width (crop_bbox c) = inject_Z 1).
Proof.
  intros sx sw HW HH Hc Hw Hh.
  rewrite crop_region_spec, Hc.
  assert (Hcw : 0 < clamped_w image det).
  { unfold clamped_w, clamped_x. fold sx sw. lia. }
  destruct (Z.leb_spec (clamped_w image det) 0); [lia |].
  destruct (Z.leb_spec (clamped_h image det) 0); [lia |].
  eexists. split; [reflexivity |]. simpl.
  unfold clamped_w, clamped_x. fold sx sw.
  split; intros Hx; split; f_equal; lia.
Qed.

Lemma crop_region_overhang_witness :
  exists c,
    crop_region frame (to_hailo (mkDetection (-1 # 10) (1 # 2) (3 # 10) (1 # 4)
                                             (9 # 10) 0))
      = Ok (Some c) /\
    bbox_x (crop_bbox c) = inject_Z 0 /\
    bbox_width (crop_bbox c) = inject_Z 240.
Proof.
  destruct (@crop_region_overhang frame
              (to_hailo (mkDetection (-1 # 10) (1 # 2) (3 # 10) (1 # 4)
                                     (9 # 10) 0)))
    as (c & E & Hleft & _); try (vm_compute; reflexivity);
    try (vm_compute; discriminate).
  exists c. split; [exact E |]. apply Hleft. vm_compute. reflexivity.
Defined.

End CropMore.

(** ** More on decoding and validation *)

Module OcrMore.

Import PlateOcr Spec OcrSpec Shapes Samples.
Import NumFacts DecoderFacts StringFacts ArgmaxFacts CtcFacts ValidateFacts OcrFacts.
Local Open Scope Z_scope.

Lemma collapse_length (f : Z -> bool) (picks : list (Z * float)) :
  forall prev, (length (collapse f prev picks) <= length picks)%nat.
Proof.
  induction picks as [| p picks IH]; intros prev; simpl; [lia |].
  rewrite length_app. specialize (IH (Some (fst p))).
  destruct (f (fst p) && differs prev (fst p)); simpl; lia.
Qed.

(** The value of a pick is a value of the buffer. *)
Lemma picks_values (data : list float) (C : Z) (picks : list (Z * float)) :
  1 <= C ->
  forall t, 0 <= t ->
            (t + Z.of_nat (length picks)) * C <= Z.of_nat (length data) ->
            picks_from data C t picks ->
            Forall (fun p => In (snd p) data) picks.
Proof.
  intros HC. unfold picks_from.
  induction picks as [| p picks IH]; intros t Ht Hlen H; [constructor |].
  simpl length in H, Hlen. rewrite indices_from_S in H.
  inversion H as [| ? ? ? ? Hp F]; subst.
  constructor.
  - destruct Hp as (Hi & Hv & _). rewrite Hv. unfold at_index.
    apply nth_In. nia.
  - apply (IH (t + 1)); [lia | nia | exact F].
Qed.

Lemma strip_valid (s : string) : all_valid (strip s).
Proof.
  unfold all_valid. induction s as [| c s IH]; cbn [strip]; [constructor |].
  destruct (contains CHARSET c) eqn:E; [| exact IH].
  simpl. constructor; [now apply contains_spec | exact IH].
Qed.

Lemma length_strip (s : string) :
  (String.length (strip s) <= String.length s)%nat.
Proof.
  induction s as [| c s IH]; cbn [strip]; [simpl; lia |].
  destruct (contains CHARSET c); simpl; lia.
Qed.

(** X11: on a tensor that holds its values, the decoded text has at most
    one character per timestep, every character is one of [CHARSET], and
    there is one confidence per character, each a value of the buffer. *)
Theorem ctc_greedy_decode_shape (data : list float) (T C : Z) :
  fits data T C ->
  exists r,
    ctc_greedy_decode data T C = Ok r /\
    (String.length (text r) <= Z.to_nat T)%nat /\
    all_valid (text r) /\
    length (char_confidences r) = String.length (text r) /\
    Forall (fun v => In v data) (char_confidences r).
Proof.
  intros F.
  destruct (ctc_greedy_decode_spec F) as (r & picks & E & P & Ht & Hc & _).
  exists r. split; [exact E |].
  destruct F as [HC Hlen]. pose proof P as [L Pf].
  split; [| split; [| split]].
  - rewrite Ht, length_chars, <- L. apply collapse_length.
  - rewrite Ht. eapply decoded_text_valid; eauto.
  - now rewrite Hc, Ht, length_chars, length_map.
  - rewrite Hc. apply Forall_map.
    assert (V : Forall (fun p => In (snd p) data) picks).
    { apply (@picks_values data C picks HC 0); [lia | | exact Pf].
      rewrite L. destruct (Z.le_gt_cases 0 T); [nia |].
      replace (Z.to_nat T) with O by lia. simpl. lia. }
    rewrite Forall_forall in V. apply Forall_forall.
    intros p Hp. apply V. now apply collapse_emits in Hp.
Qed.

Lemma ctc_greedy_decode_shape_witness :
  exists r,
    ctc_greedy_decode all_classes 6 37 = Ok r /\
    (String.length (text r) <= 6)%nat /\
    all_valid (text r).
Proof.
  destruct (@ctc_greedy_decode_shape all_classes 6 37) as (r & E & L & V & _).
  - split; [lia | vm_compute; discriminate].
  - exists r. auto.
Defined.

(** X13: [validate_plate_text] returns either the empty text or a text of
    4 to 8 characters, all of [CHARSET], never longer than its argument;
    validating twice is validating once. *)
Theorem validate_plate_text_idempotent (text : string) :
  validate_plate_text (validate_plate_text text) = validate_plate_text text /\
  all_valid (validate_plate_text text) /\
  (validate_plate_text text = ""%string \/
   (4 <= String.length (validate_plate_text text) <= 8)%nat) /\
  (String.length (validate_plate_text text) <= String.length text)%nat.
Proof.
  assert (V : all_valid (validate_plate_text text)).
  { rewrite validate_plate_text_spec.
    destruct (_ && _); [apply strip_valid | constructor]. }
  split; [| split; [exact V | split]].
  - rewrite (validate_plate_text_spec text).
    destruct ((4 <=? String.length (strip text))%nat
              && (String.length (strip text) <=? 8)%nat) eqn:B.
    + now rewrite validate_plate_text_spec, (strip_all_valid (strip_valid text)), B.
    + reflexivity.
  - rewrite validate_plate_text_spec.
    destruct (Nat.leb_spec 4 (String.length (strip text)));
      destruct (Nat.leb_spec (String.length (strip text)) 8); simpl; auto.
  - rewrite validate_plate_text_spec. pose proof (length_strip text).
    destruct (_ && _); simpl; lia.
Qed.

(** X14: what [plate_ocr] returns on a tensor that holds its values:
    nothing, or one classification whose label has 4 to 8 characters of
    [CHARSET], whose confidence is at least 0.6, and whose metadata hold
    one confidence per character of the label and, as raw text, the label
    itself. *)
Theorem plate_ocr_result (tensor : HailoTensor) (cs : list HailoClassification) :
  fits (tensor_data tensor) (tensor_height tensor) (tensor_width tensor) ->
  plate_ocr tensor = Ok cs ->
  cs = [] \/
  exists c confs,
    cs = [c] /\
    (4 <= String.length (label c) <= 8)%nat /\
    all_valid (label c) /\
    (MIN_CONFIDENCE <= cls_confidence c)%Q /\
    metadata c = [("char_confidences"%string, MetaFloats confs);
                  ("raw_text"%string, MetaText (label c))] /\
    length confs = String.length (label c).
Proof.
  intros F E.
  destruct (ctc_greedy_decode_spec F) as (r & picks & D & P & Ht & Hc & _).
  assert (V : all_valid (text r))
    by (rewrite Ht; eapply decoded_text_valid; eauto).
  unfold plate_ocr in E. cbv zeta in E. unfold USE_BEAM_SEARCH in E.
  rewrite D in E. simpl bind in E.
  rewrite validate_plate_text_spec, (strip_all_valid V) in E.
  destruct (Nat.leb_spec 4 (String.length (text r))) as [L4 | L4];
    [| simpl in E; injection E as <-; now left].
  destruct (Nat.leb_spec (String.length (text r)) 8) as [L8 | L8];
    [| simpl in E; injection E as <-; now left].
  simpl andb in E. cbv iota in E.
  destruct (String.eqb (text r) "");
    [simpl in E; injection E as <-; now left |].
  destruct (fge (confidence r) MIN_CONFIDENCE) eqn:G;
    [| simpl in E; injection E as <-; now left].
  simpl in E. injection E as <-. right.
  eexists. exists (char_confidences r). split; [reflexivity |]. simpl.
  split; [lia |]. split; [exact V |].
  split; [now apply fge_true |]. split; [reflexivity |].
  now rewrite Hc, Ht, length_chars, length_map.
Qed.

Lemma plate_ocr_result_witness :
  exists c confs,
    plate_ocr plate_tensor = Ok [c] /\
    metadata c = [("char_confidences"%string, MetaFloats confs);
                  ("raw_text"%string, MetaText (label c))] /\
    length confs = String.length (label c).
Proof.
  assert (F : fits (tensor_data plate_tensor) (tensor_height plate_tensor)
                   (tensor_width plate_tensor))
    by (split; [simpl; lia | vm_compute; discriminate]).
  destruct (@plate_ocr_result plate_tensor _ F eq_refl)
    as [E | (c & confs & E & _ & _ & _ & M & L)].
  - discriminate.
  - exists c, confs. injection E as <-. repeat split; assumption.
Defined.

(** The inner loop returns when the positions it reads lie inside the
    buffer and reads outside it otherwise. *)
Lemma argmax_loop_defined (data : list float) (t C : Z) (n : nat) :
  forall c idx val,
    match argmax_loop data t C c n idx val with
    | Ok _ =>
        forallb (fun c => in_buffer data (t * C + c)) (indices_from c n) = true
    | Undefined u =>
        u = ReadOutOfBounds /\
        forallb (fun c => in_buffer data (t * C + c)) (indices_from c n) = false
    end.
Proof.
  induction n as [| n IH]; intros c idx val; [reflexivity |].
  rewrite indices_from_S. simpl argmax_loop. simpl forallb.
  rewrite read_spec.
  destruct (in_buffer data (t * C + c)); simpl; [| auto].
  destruct (fgt (at_index data (t * C + c)) val); apply IH.
Qed.

Lemma argmax_defined (data : list float) (t C : Z) :
  match argmax data t C with
  | Ok _ => timestep_in_buffer data C t = true
  | Undefined u => u = ReadOutOfBounds /\ timestep_in_buffer data C t = false
  end.
Proof.
  unfold argmax, timestep_in_buffer.
  replace (Z.to_nat (Z.max 1 C)) with (S (Z.to_nat (C - 1))) by lia.
  rewrite indices_from_S. simpl forallb. rewrite Z.add_0_r, read_spec.
  destruct (in_buffer data (t * C)); simpl; [| auto].
  apply argmax_loop_defined.
Qed.

Lemma ctc_loop_defined (data : list float) (C : Z) (n : nat) :
  forall t st,
    match ctc_loop data C t n st with
    | Ok _ => forallb (timestep_in_buffer data C) (indices_from t n) = true
    | Undefined u =>
        u = ReadOutOfBounds /\
        forallb (timestep_in_buffer data C) (indices_from t n) = false
    end.
Proof.
  induction n as [| n IH]; intros t st; [reflexivity |].
  rewrite indices_from_S. simpl ctc_loop. simpl forallb.
  pose proof (argmax_defined data t C) as A.
  destruct (argmax data t C) as [[idx val] | u].
  - rewrite A. simpl. apply IH.
  - destruct A as [-> ->]. simpl. auto.
Qed.

(** X15: neither [ctc_greedy_decode] nor [plate_ocr] checks the declared
    shape, the class count included: they return when every position
    read, [t * C] and [t * C + c] for [1 <= c < C] at each timestep
    [t < T], lies inside the buffer, and read outside the buffer
    otherwise; no other failure exists. *)
Theorem plate_ocr_defined (tensor : HailoTensor) :
  let data := tensor_data tensor in
  let T := tensor_height tensor in
  let C := tensor_width tensor in
  if timesteps_in_buffer data T C
  then (exists r, ctc_greedy_decode data T C = Ok r) /\
       (exists cs, plate_ocr tensor = Ok cs)
  else ctc_greedy_decode data T C = Undefined ReadOutOfBounds /\
       plate_ocr tensor = Undefined ReadOutOfBounds.
Proof.
  cbv zeta. unfold plate_ocr, USE_BEAM_SEARCH, ctc_greedy_decode.
  unfold timesteps_in_buffer, row_indices.
  pose proof (ctc_loop_defined (tensor_data tensor) (tensor_width tensor)
                (Z.to_nat (tensor_height tensor)) 0 decoder_init) as D.
  destruct (ctc_loop _ _ _ _ _) as [st | u].
  - rewrite D. simpl bind. split; [eexists; reflexivity |].
    destruct (_ && _); eexists; reflexivity.
  - destruct D as [-> ->]. split; reflexivity.
Qed.

(** X16: a tensor with a single class is decoded like any other: every
    timestep picks class 0, so the text is "0" with the first value of the
    buffer as confidence. *)
Theorem ctc_single_class (data : list float) (T : Z) :
  1 <= T -> T <= Z.of_nat (length data) ->
  exists r,
    ctc_greedy_decode data T 1 = Ok r /\
    text r = "0"%string /\
    char_confidences r = [at_index data 0] /\
    (confidence r == at_index data 0)%Q.
Proof.
  intros HT Hlen.
  assert (F : fits data T 1) by (split; lia).
  destruct (ctc_greedy_decode_spec F) as (r & picks & E & [L P] & Ht & Hc & Hm).
  exists r. split; [exact E |].
  pose proof (picks_from_range P) as R.
  destruct picks as [| [i v] picks]; [simpl in L; lia |].
  inversion R as [| ? ? Ri Rrest]; subst. simpl in Ri.
  assert (i = 0) by lia. subst i.
  assert (Hv : v = at_index data 0).
  { unfold picks_from in P. simpl length in P. rewrite indices_from_S in P.
    inversion P as [| ? ? ? ? A _]; subst.
    destruct A as (_ & A & _). simpl in A. exact A. }
  assert (Hrest : Forall (fun p => fst p = 0) picks).
  { eapply Forall_impl; [| exact Rrest]. intros p Hp. simpl in Hp. lia. }
  assert (Em : collapse is_char None ((0, v) :: picks) = [(0, v)]).
  { simpl. now rewrite (collapse_same _ Hrest). }
  rewrite Em in *. subst v.
  split; [exact Ht |]. split; [exact Hc |].
  rewrite Hm, Hc. unfold mean, Qsum. simpl. field.
Qed.

Lemma ctc_single_class_witness :
  exists r,
    ctc_greedy_decode [3 # 4; 1 # 4; 1 # 2] 3 1 = Ok r /\
    text r = "0"%string /\
    (confidence r == 3 # 4)%Q.
Proof.
  destruct (@ctc_single_class [3 # 4; 1 # 4; 1 # 2] 3) as (r & E & Ht & _ & Hm).
  - lia.
  - simpl. lia.
  - exists r. repeat split; assumption.
Defined.

(** The picks of fewer timesteps start the picks of more timesteps. *)
Lemma picks_prefix (data : list float) (C : Z) (p : list (Z * float)) :
  forall q t,
    picks_from data C t p -> picks_from data C t q ->
    (length p <= length q)%nat ->
    q = p ++ skipn (length p) q.
Proof.
  unfold picks_from.
  induction p as [| a p IH]; intros q t Hp Hq L; [reflexivity |].
  destruct q as [| b q]; [simpl in L; lia |].
  simpl length in Hp, Hq. rewrite indices_from_S in Hp, Hq.
  inversion Hp as [| ? ? ? ? Aa Fp]; subst.
  inversion Hq as [| ? ? ? ? Ab Fq]; subst.
  destruct (is_argmax_unique Aa Ab) as [E1 E2].
  assert (a = b) by (destruct a, b; simpl in *; congruence). subst b.
  simpl. f_equal. apply (IH q (t + 1)); [exact Fp | exact Fq |].
  simpl in L. lia.
Qed.

Lemma collapse_app (f : Z -> bool) (p q : list (Z * float)) :
  forall prev,
    collapse f prev (p ++ q)
    = collapse f prev p ++ collapse f (last_class prev p) q.
Proof.
  induction p as [| a p IH]; intros prev; simpl; [reflexivity |].
  now rewrite IH, app_assoc.
Qed.

Lemma chars_app (p q : list (Z * float)) :
  chars (p ++ q) = String.append (chars p) (chars q).
Proof. unfold chars. now rewrite map_app, string_of_list_ascii_app. Qed.

(** X17: decoding is incremental: the text and the per-character
    confidences decoded from the first [T1] timesteps of a buffer start
    the ones decoded from its first [T2 >= T1] timesteps; more timesteps
    only append. *)
Theorem ctc_greedy_decode_prefix (data : list float) (T1 T2 C : Z) :
  fits data T2 C -> T1 <= T2 ->
  exists r1 r2 suffix more,
    ctc_greedy_decode data T1 C = Ok r1 /\
    ctc_greedy_decode data T2 C = Ok r2 /\
    text r2 = String.append (text r1) suffix /\
    char_confidences r2 = char_confidences r1 ++ more.
Proof.
  intros F2 HT.
  assert (F1 : fits data T1 C) by (destruct F2; split; [lia | nia]).
  destruct (ctc_greedy_decode_spec F1) as (r1 & p1 & E1 & [L1 P1] & Ht1 & Hc1 & _).
  destruct (ctc_greedy_decode_spec F2) as (r2 & p2 & E2 & [L2 P2] & Ht2 & Hc2 & _).
  assert (L : (length p1 <= length p2)%nat) by lia.
  pose proof (picks_prefix P1 P2 L) as Ep.
  exists r1, r2.
  exists (chars (collapse is_char (last_class None p1) (skipn (length p1) p2))).
  exists (map snd (collapse is_char (last_class None p1) (skipn (length p1) p2))).
  split; [exact E1 |]. split; [exact E2 |].
  rewrite Ht1, Ht2, Hc1, Hc2.
  set (rest := skipn (length p1) p2) in *. clearbody rest. subst p2.
  rewrite collapse_app, chars_app, map_app. split; reflexivity.
Qed.

Lemma ctc_greedy_decode_prefix_witness :
  exists r1 r2 suffix,
    ctc_greedy_decode all_classes 2 37 = Ok r1 /\
    ctc_greedy_decode all_classes 6 37 = Ok r2 /\
    text r2 = String.append (text r1) suffix.
Proof.
  destruct (@ctc_greedy_decode_prefix all_classes 2 6 37)
    as (r1 & r2 & suffix & more & E1 & E2 & Ht & _).
  - split; [lia | vm_compute; discriminate].
  - lia.
  - exists r1, r2, suffix. auto.
Defined.

(** X18: a tensor of fewer than four timesteps never gives a
    classification: the decoded text has at most one character per
    timestep, and the validation asks for four. *)
Theorem plate_ocr_short (tensor : HailoTensor) :
  fits (tensor_data tensor) (tensor_height tensor) (tensor_width tensor) ->
  tensor_height tensor < 4 ->
  plate_ocr tensor = Ok [].
Proof.
  intros F HT.
  destruct (ctc_greedy_decode_spec F) as (r & picks & D & [L P] & Ht & _).
  assert (Hlen : (String.length (text r) < 4)%nat).
  { rewrite Ht, length_chars.
    pose proof (collapse_length is_char picks None). lia. }
  unfold plate_ocr. cbv zeta. unfold USE_BEAM_SEARCH. rewrite D. simpl bind.
  rewrite validate_plate_text_spec.
  pose proof (length_strip (text r)).
  destruct (Nat.leb_spec 4 (String.length (strip (text r)))); [lia |].
  reflexivity.
Qed.

Lemma plate_ocr_short_witness :
  plate_ocr (mkTensor sevens 37 3) = Ok [].
Proof.
  apply (@plate_ocr_short (mkTensor sevens 37 3)).
  - split; [simpl; lia | vm_compute; discriminate].
  - simpl. lia.
Defined.

End OcrMore.

(** ** Suppression and the order or the position of the detections *)

Module NmsOrder.

Import PlateDetection Spec Samples NumFacts IouFacts SortFacts NmsFacts.
Local Open Scope Q_scope.

(** Two boxes that do not overlap have IoU 0, or NaN. *)
Lemma compute_iou_apart (a b : Detection) :
  disjoint a b ->
  compute_iou a b = NaN \/ exists q, compute_iou a b = Finite q /\ q == 0.
Proof.
  intros D.
  destruct (Qeq_dec (area a + area b) 0) as [U | U].
  - destruct (compute_iou_range a b) as [(q & E & Hq0 & Hq1) | (E & _)];
      [| now left].
    right. exists q. split; [exact E |].
    revert E. unfold compute_iou, area in *. cbv zeta.
    pose proof (past_guard a b) as P. cbv zeta in P.
    destruct (flt _ _ || flt _ _) eqn:G.
    + intros E. injection E as <-. reflexivity.
    + specialize (P eq_refl).
      set (dx := std_min (x a + width a) (x b + width b) - std_max (x a) (x b)) in *.
      set (dy := std_min (y a + height a) (y b + height b) - std_max (y a) (y b)) in *.
      destruct P as [(Hx0 & Hxa & Hxb) (Hy0 & Hya & Hyb)].
      assert (Hi0 : 0 <= dx * dy) by nra.
      assert (Hia : dx * dy <= width a * height a) by nra.
      assert (Hib : dx * dy <= width b * height b) by nra.
      rewrite fdiv_zero_zero; [discriminate | lra | lra].
  - pose proof (compute_iou_disjoint D U) as X.
    destruct (compute_iou a b) as [q | | |]; simpl in X; try contradiction.
    right. now exists q.
Qed.

Lemma xgt_iou_apart (thr : float) (a b : Detection) :
  0 <= thr -> disjoint a b -> xgt (compute_iou a b) thr = false.
Proof.
  intros H D. destruct (compute_iou_apart D) as [-> | (q & -> & Hq)].
  - reflexivity.
  - apply xgt_finite. lra.
Qed.

Lemma disjoint_sym (a b : Detection) : disjoint a b -> disjoint b a.
Proof. unfold disjoint. tauto. Qed.

Lemma apart_permutation (l l' : list Detection) :
  Permutation l l' ->
  ForallOrdPairs disjoint l -> ForallOrdPairs disjoint l'.
Proof.
  induction 1 as [| a l l' P IH | a b l | l l' l'' P1 IH1 P2 IH2];
    intros H; auto.
  - inversion H as [| ? ? F T]; subst.
    constructor; [now apply (Permutation_Forall P) | now apply IH].
  - inversion H as [| ? ? F T]; subst.
    inversion T as [| ? ? F' T']; subst.
    inversion F as [| ? ? Hba Fb]; subst.
    constructor; [| now constructor].
    constructor; [now apply disjoint_sym | exact F'].
Qed.

(** X19: detections whose boxes pairwise do not overlap never suppress
    one another: for a threshold of 0 or more, [apply_nms] returns all of
    them, sorted. *)
Theorem apply_nms_apart
        (sort : list Detection -> list Detection)
        (l : list Detection) (thr : float) :
  sort_contract sort -> 0 <= thr ->
  ForallOrdPairs disjoint l ->
  apply_nms sort l thr = sort l.
Proof.
  intros C H D. unfold apply_nms. apply nms_loop_all.
  apply (apart_permutation (sort_permutes C l)) in D.
  induction D as [| a l' F T IH]; constructor; auto.
  eapply Forall_impl; [| exact F].
  intros b Hb. now apply xgt_iou_apart.
Qed.

Lemma apply_nms_apart_witness :
  apply_nms stable_sort [north_box; south_box] NMS_THRESHOLD
  = stable_sort [north_box; south_box].
Proof.
  apply (@apply_nms_apart stable_sort [north_box; south_box] NMS_THRESHOLD
           stable_sort_contract).
  - vm_compute. discriminate.
  - constructor.
    + constructor; [left; vm_compute; discriminate | constructor].
    + constructor; constructor.
Defined.

(** X20: when detections of equal confidence are identical, the result
    of [apply_nms] does not depend on the order in which the detections
    are given. *)
Theorem apply_nms_order_independent
        (sort : list Detection -> list Detection)
        (l l' : list Detection) (thr : float) :
  sort_contract sort -> Permutation l l' -> ties_identical l ->
  apply_nms sort l thr = apply_nms sort l' thr.
Proof.
  intros C P T.
  assert (E : sort l = sort l').
  { apply descending_unique.
    - rewrite <- (sort_permutes C l), <- (sort_permutes C l'). exact P.
    - now apply contract_descending.
    - now apply contract_descending.
    - intros a b Ha Hb. apply T;
        eapply Permutation_in; try eassumption;
        apply Permutation_sym, (sort_permutes C). }
  unfold apply_nms. now rewrite E.
Qed.

Lemma apply_nms_order_independent_witness :
  apply_nms stable_sort [far_box; left_box] NMS_THRESHOLD
  = apply_nms stable_sort [left_box; far_box] NMS_THRESHOLD.
Proof.
  apply (@apply_nms_order_independent stable_sort [far_box; left_box]
           [left_box; far_box] NMS_THRESHOLD stable_sort_contract).
  - apply perm_swap.
  - ties_by_computation.
Defined.

End NmsOrder.
